(** * svg-renderer: symbolic coordinate resolver and render scheduler

    A shallow embedding of [src/index.ts]: the expression resolver
    ([evalExpression]), the path compiler ([createSvgPaths]), the sink
    ([createSvgElement]) and the scheduler ([setupSvgRenderer]) together
    with the parts of the JavaScript runtime they rely on.

    JavaScript numbers are IEEE 754 binary64 values, represented by the
    primitive type [float]; strings are sequences of ASCII characters. *)

From Stdlib Require Import ZArith Bool List String Ascii Lia.
From Stdlib Require Import DecimalString.
From Stdlib Require Import PrimFloat FloatOps SpecFloat.
Import ListNotations.

Local Open Scope string_scope.
Local Open Scope Z_scope.

(* ================================================================== *)
(** ** Strings of the runtime *)

Module JsString.

Definition charCode (c : ascii) : nat := nat_of_ascii c.

Definition inRange (lo hi : nat) (c : ascii) : bool :=
  (Nat.leb lo (charCode c) && Nat.leb (charCode c) hi)%bool.

(** [\d] *)
Definition isDigit (c : ascii) : bool := inRange 48 57 c.

(** [[\d.]] *)
Definition isDigitOrDot (c : ascii) : bool := (isDigit c || Ascii.eqb c ".")%bool.

Definition isLetter (c : ascii) : bool := (inRange 65 90 c || inRange 97 122 c)%bool.

(** First character of an identifier name (ASCII part). *)
Definition isIdentStart (c : ascii) : bool :=
  (isLetter c || Ascii.eqb c "_" || Ascii.eqb c "$")%bool.

Definition isIdentPart (c : ascii) : bool := (isIdentStart c || isDigit c)%bool.

(** White space and line terminators skipped by [parseFloat] and [parseInt]. *)
Definition isStrWhiteSpace (c : ascii) : bool :=
  (inRange 9 13 c || Ascii.eqb c " ")%bool.

Fixpoint existsb (p : ascii -> bool) (s : string) : bool :=
  match s with
  | EmptyString => false
  | String c r => (p c || existsb p r)%bool
  end.

Fixpoint forallb (p : ascii -> bool) (s : string) : bool :=
  match s with
  | EmptyString => true
  | String c r => (p c && forallb p r)%bool
  end.

(** Longest prefix whose characters satisfy [p], and the rest. *)
Fixpoint span (p : ascii -> bool) (s : string) : string * string :=
  match s with
  | EmptyString => (EmptyString, EmptyString)
  | String c r =>
      if p c then let (a, b) := span p r in (String c a, b)
      else (EmptyString, s)
  end.

Fixpoint dropWhile (p : ascii -> bool) (s : string) : string :=
  match s with
  | EmptyString => EmptyString
  | String c r => if p c then dropWhile p r else s
  end.

Fixpoint drop (n : nat) (s : string) : string :=
  match n, s with
  | O, _ => s
  | S k, EmptyString => EmptyString
  | S k, String _ r => drop k r
  end.

Fixpoint repeat (c : ascii) (n : nat) : string :=
  match n with
  | O => EmptyString
  | S k => String c (repeat c k)
  end.

(** [s.includes(c)] for a one-character needle. *)
Definition includesChar (c : ascii) (s : string) : bool := existsb (Ascii.eqb c) s.

(** [s.replace(/pat/g, rep)] for a pattern made of literal characters and
    a replacement text without [$]: scanning left to right, each match is
    replaced and scanning resumes after it.  [skip] counts the characters
    of the current match that are still to be passed over. *)
Fixpoint replaceAllFrom (pat rep : string) (skip : nat) (s : string) : string :=
  match s with
  | EmptyString => EmptyString
  | String c r =>
      match skip with
      | S k => replaceAllFrom pat rep k r
      | O =>
          if prefix pat s
          then rep ++ replaceAllFrom pat rep (Nat.pred (length pat)) r
          else String c (replaceAllFrom pat rep 0 r)
      end
  end.

Definition replaceAll (pat rep : string) (s : string) : string :=
  match pat with
  | EmptyString => s
  | _ => replaceAllFrom pat rep 0 s
  end.

(** [parts.join(sep)] *)
Fixpoint join (sep : string) (parts : list string) : string :=
  match parts with
  | [] => EmptyString
  | [p] => p
  | p :: rest => p ++ sep ++ join sep rest
  end.

End JsString.

(* ================================================================== *)
(** ** Numbers of the runtime *)

Module JsNumber.
Import JsString.

(** The number nearest to the integer [z] (ties to even). *)
Definition ofZ (z : Z) : float := SF2Prim (binary_normalize prec emax z 0 false).

(** The number nearest to [d * 10^e], for [0 <= d]: the value of a
    decimal literal with digits [d] and decimal exponent [e]. *)
Definition ofDecimal (d e : Z) : float :=
  if 0 <=? e then ofZ (d * 10 ^ e)
  else match d, 10 ^ (- e) with
       | Zpos p, Zpos q =>
           SF2Prim (SFdiv prec emax (S754_finite false p 0) (S754_finite false q 0))
       | _, _ => zero
       end.

Definition digitValue (c : ascii) : Z := Z.of_nat (charCode c) - 48.

Fixpoint digitsValueFrom (acc : Z) (s : string) : Z :=
  match s with
  | EmptyString => acc
  | String c r => digitsValueFrom (10 * acc + digitValue c) r
  end.

(** Value of a string of decimal digits. *)
Definition digitsValue (s : string) : Z := digitsValueFrom 0 s.

(** Decimal digits of a non-negative integer. *)
Definition digitsOf (z : Z) : string := NilZero.string_of_uint (N.to_uint (Z.to_N z)).

(** *** Number::toString (radix 10) *)

(** [x < 10^n] for the positive rational [x = num / den]. *)
Definition ltPow10 (num den n : Z) : bool :=
  if 0 <=? n then num <? den * 10 ^ n else num * 10 ^ (- n) <? den.

(** The least [n], counted up from the given one, with [x < 10^n]. *)
Fixpoint findN (fuel : nat) (num den n : Z) : Z :=
  match fuel with
  | O => n
  | S f => if ltPow10 num den n then n else findN f num den (n + 1)
  end.

(** A starting point for [findN] below the decimal exponent of
    [m * 2^e]: that number is at least [2^(b-1)] for [b] the position of
    its leading bit, and [30103 / 100000] approximates [log10 2]. *)
Definition exponentEstimate (m : positive) (e : Z) : Z :=
  ((Zdigits2 (Zpos m) + e - 1) * 30103) / 100000 - 1.

(** [x / 10^q] as a fraction. *)
Definition scaleBy (num den q : Z) : Z * Z :=
  if 0 <=? q then (num, den * 10 ^ q) else (num * 10 ^ (- q), den).

(** The [k]-digit integers [s] for which [s * 10^(n-k)] reads back as [x],
    the nearer one first; none when [k] digits do not suffice. *)
Definition candidate (x : float) (num den n k : Z) : option Z :=
  let (a, b) := scaleBy num den (n - k) in
  let lo := a / b in
  let r := a mod b in
  let hi := lo + 1 in
  let back c := PrimFloat.eqb (ofDecimal c (n - k)) x in
  match back lo, back hi with
  | true, true =>
      if 2 * r <? b then Some lo
      else if b <? 2 * r then Some hi
      else if Z.even lo then Some lo else Some hi
  | true, false => Some lo
  | false, true => Some hi
  | false, false => None
  end.

(** The shortest digit string: the least [k] with a candidate, from [k]
    upwards; seventeen digits always suffice for binary64. *)
Fixpoint shortest (fuel : nat) (x : float) (num den n k : Z) : Z * Z :=
  match fuel with
  | O => (fst (scaleBy num den (n - k)) / snd (scaleBy num den (n - k)), k)
  | S f =>
      match candidate x num den n k with
      | Some s => (s, k)
      | None => shortest f x num den n (k + 1)
      end
  end.

(** Layout of the digits [ds] of [s] (there are [k] of them) for the value
    [s * 10^(n-k)]: steps 6 to 10 of Number::toString. *)
Definition layout (ds : string) (k n : Z) : string :=
  if (k <=? n) && (n <=? 21) then
    ds ++ repeat "0" (Z.to_nat (n - k))
  else if (0 <? n) && (n <=? 21) then
    substring 0 (Z.to_nat n) ds ++ "." ++ drop (Z.to_nat n) ds
  else if (-6 <? n) && (n <=? 0) then
    "0." ++ repeat "0" (Z.to_nat (- n)) ++ ds
  else
    let e := n - 1 in
    let es := (if 0 <=? e then "+" else "-") ++ digitsOf (Z.abs e) in
    if k =? 1 then ds ++ "e" ++ es
    else substring 0 1 ds ++ "." ++ drop 1 ds ++ "e" ++ es.

(** Text of the positive finite number [m * 2^e]. *)
Definition finiteToString (m : positive) (e : Z) : string :=
  let x := SF2Prim (S754_finite false m e) in
  let num := if 0 <=? e then Zpos m * 2 ^ e else Zpos m in
  let den := if 0 <=? e then 1 else 2 ^ (- e) in
  let n := findN 8 num den (exponentEstimate m e) in
  let (s, k) := shortest 17 x num den n 1 in
  if s =? 10 ^ k then layout "1" 1 (n + 1) else layout (digitsOf s) k n.

(** [x.toString()], also the conversion used by template literals. *)
Definition toString (x : float) : string :=
  match Prim2SF x with
  | S754_nan => "NaN"
  | S754_zero _ => "0"
  | S754_infinity false => "Infinity"
  | S754_infinity true => "-Infinity"
  | S754_finite false m e => finiteToString m e
  | S754_finite true m e => "-" ++ finiteToString m e
  end.

(** *** parseFloat and parseInt *)

Definition trimStart (s : string) : string := dropWhile isStrWhiteSpace s.

(** An optional sign: whether it is a minus, and the rest. *)
Definition takeSign (s : string) : bool * string :=
  match s with
  | String "-" r => (true, r)
  | String "+" r => (false, r)
  | _ => (false, s)
  end.

Definition withSign (neg : bool) (x : float) : float :=
  if neg then PrimFloat.opp x else x.

(** An exponent part [e], [e+] or [e-] followed by digits: its value and
    the rest; [None] when the text does not start with one. *)
Definition exponentPart (s : string) : option (Z * string) :=
  match s with
  | String c r =>
      if (Ascii.eqb c "e" || Ascii.eqb c "E")%bool then
        let (neg, r1) := takeSign r in
        let (ds, r2) := span isDigit r1 in
        match ds with
        | EmptyString => None
        | _ => Some (if neg then - digitsValue ds else digitsValue ds, r2)
        end
      else None
  | EmptyString => None
  end.

(** The longest prefix that is an unsigned decimal literal (digits, an
    optional fraction, an optional exponent): its value and the rest. *)
Definition decimalPrefix (s : string) : option (float * string) :=
  let (ip, r1) := span isDigit s in
  let (fp, r2) :=
    match r1 with
    | String "." r => span isDigit r
    | _ => (EmptyString, r1)
    end in
  match ip ++ fp with
  | EmptyString => None
  | ds =>
      match exponentPart r2 with
      | Some (ex, r3) =>
          Some (ofDecimal (digitsValue ds) (ex - Z.of_nat (length fp)), r3)
      | None =>
          Some (ofDecimal (digitsValue ds) (- Z.of_nat (length fp)), r2)
      end
  end.

(** [parseFloat(s)] *)
Definition parseFloat (input : string) : float :=
  let (neg, s) := takeSign (trimStart input) in
  if prefix "Infinity" s then withSign neg infinity
  else match decimalPrefix s with
       | Some (v, _) => withSign neg v
       | None => nan
       end.

Definition isHexDigit (c : ascii) : bool :=
  (isDigit c || inRange 65 70 c || inRange 97 102 c)%bool.

Definition hexDigitValue (c : ascii) : Z :=
  if isDigit c then digitValue c
  else if inRange 65 70 c then Z.of_nat (charCode c) - 55
  else Z.of_nat (charCode c) - 87.

Fixpoint hexValueFrom (acc : Z) (s : string) : Z :=
  match s with
  | EmptyString => acc
  | String c r => hexValueFrom (16 * acc + hexDigitValue c) r
  end.

(** [parseInt(s)] without a radix argument. *)
Definition parseIntString (input : string) : float :=
  let (neg, s) := takeSign (trimStart input) in
  match s with
  | String "0" (String c r) =>
      if (Ascii.eqb c "x" || Ascii.eqb c "X")%bool then
        match fst (span isHexDigit r) with
        | EmptyString => nan
        | ds => withSign neg (ofZ (hexValueFrom 0 ds))
        end
      else withSign neg (ofZ (digitsValue (fst (span isDigit s))))
  | _ =>
      match fst (span isDigit s) with
      | EmptyString => nan
      | ds => withSign neg (ofZ (digitsValue ds))
      end
  end.

(** [parseInt(x)] for a number [x]: the argument is first converted to its
    text. *)
Definition parseInt (x : float) : float := parseIntString (toString x).

End JsNumber.

(* ================================================================== *)
(** ** The evaluator behind [Function(...)()]

    [evalExpression] builds the text of a function body, [return (e);] in
    strict mode, and calls it.  The runtime is modelled on the arithmetic
    fragment of the expression language: decimal literals, identifiers,
    the operators [+ - * /], parentheses, calls without argument of an
    identifier, spaces and tabs.  Three kinds of text that the engine
    rejects while it reads them are modelled as syntax errors: a decimal
    literal with a leading zero (strict mode), a decimal literal followed
    at once by a letter that cannot continue a numeric literal, and [++]
    or [--] next to a literal.  A text using anything else (another
    character, a comment, a regular expression literal, a call with
    arguments, [++] or [--] elsewhere, [**], a reserved word, a literal
    followed by one of [x b o n _]) is [Unmodelled]: the model makes no
    statement about it. *)

Module JsEngine.
Import JsString JsNumber.

Inductive token : Type :=
| TNum (v : float)
| TIdent (x : string)
| TPlus | TMinus | TStar | TSlash | TLParen | TRParen
| TUpdate
| TError.

(** Words that are not plain identifier references in a strict function
    body. *)
Definition reservedWords : list string :=
  [ "await"; "break"; "case"; "catch"; "class"; "const"; "continue";
    "debugger"; "default"; "delete"; "do"; "else"; "enum"; "export";
    "extends"; "false"; "finally"; "for"; "function"; "if"; "import";
    "in"; "instanceof"; "new"; "null"; "return"; "super"; "switch";
    "this"; "throw"; "true"; "try"; "typeof"; "var"; "void"; "while";
    "with"; "yield"; "let"; "static"; "implements"; "interface";
    "package"; "private"; "protected"; "public"; "arguments"; "eval" ].

Definition isReserved (x : string) : bool :=
  List.existsb (String.eqb x) reservedWords.

Definition startsWith (p : ascii -> bool) (s : string) : bool :=
  match s with
  | String c _ => p c
  | EmptyString => false
  end.

(** Letters that, behind digits, may belong to a numeric literal of
    another form: hexadecimal, binary and octal prefixes, the BigInt suffix
    and the digit separator. *)
Definition continuesNumber (c : ascii) : bool :=
  List.existsb (Ascii.eqb c) ["x"; "X"; "b"; "B"; "o"; "O"; "n"; "_"]%char.

Inductive lexedNumber : Type :=
| NumberToken (v : float) (rest : string)
| BadNumber
| OtherNumber.

(** A decimal literal at the head of [s]: its value and the rest.  In
    strict code a leading zero before further digits is an error, and so
    is an identifier character right behind a decimal literal. *)
Definition lexNumber (s : string) : lexedNumber :=
  let ip := fst (span isDigit s) in
  if (startsWith (Ascii.eqb "0") ip && Nat.ltb 1 (length ip))%bool then BadNumber
  else match decimalPrefix s with
       | Some (v, rest) =>
           if startsWith continuesNumber rest then OtherNumber
           else if startsWith isIdentStart rest then BadNumber
           else NumberToken v rest
       | None => OtherNumber
       end.

(** The tokens of a text, [None] when it leaves the modelled fragment.
    Reading stops at a malformed literal, with [TError] as the last token.
    Every step consumes a character, so the length of the text is enough
    fuel. *)
Fixpoint lexFrom (fuel : nat) (s : string) : option (list token) :=
  match fuel with
  | O => match s with EmptyString => Some [] | _ => None end
  | S f =>
      let cons t r := option_map (cons t) (lexFrom f r) in
      match s with
      | EmptyString => Some []
      | String c r =>
          if (Ascii.eqb c " " || Ascii.eqb c "009")%bool then lexFrom f r
          else if (isDigit c || (Ascii.eqb c "." && startsWith isDigit r))%bool then
            match lexNumber s with
            | NumberToken v rest => cons (TNum v) rest
            | BadNumber => Some [TError]
            | OtherNumber => None
            end
          else if isIdentStart c then
            let (x, rest) := span isIdentPart s in
            if isReserved x then None else cons (TIdent x) rest
          else if Ascii.eqb c "+" then
            if startsWith (Ascii.eqb "+") r then cons TUpdate (JsString.drop 1 r)
            else cons TPlus r
          else if Ascii.eqb c "-" then
            if startsWith (Ascii.eqb "-") r then cons TUpdate (JsString.drop 1 r)
            else cons TMinus r
          else if Ascii.eqb c "*" then
            if startsWith (Ascii.eqb "*") r then None else cons TStar r
          else if Ascii.eqb c "/" then
            if (startsWith (Ascii.eqb "/") r || startsWith (Ascii.eqb "*") r)%bool
            then None else cons TSlash r
          else if Ascii.eqb c "(" then cons TLParen r
          else if Ascii.eqb c ")" then cons TRParen r
          else None
      end
  end.

Definition lex (s : string) : option (list token) := lexFrom (length s) s.

Inductive unop : Type := UPlus | UMinus.
Inductive binop : Type := Add | Sub | Mul | Div.

Inductive expr : Type :=
| ENum (v : float)
| EIdent (x : string)
| ECall (x : string)
| EUnary (op : unop) (e : expr)
| EBinary (op : binop) (l r : expr).

Inductive parsed : Type :=
| Parsed (e : expr) (rest : list token)
| SyntaxError
| OutsideFragment.

Definition additiveOp (t : token) : option binop :=
  match t with TPlus => Some Add | TMinus => Some Sub | _ => None end.

Definition multiplicativeOp (t : token) : option binop :=
  match t with TStar => Some Mul | TSlash => Some Div | _ => None end.

(** [acc op e op e ...]: a left-associative chain of operands. *)
Fixpoint chain (fuel : nat) (operand : list token -> parsed)
    (isOp : token -> option binop) (acc : expr) (ts : list token) : parsed :=
  match fuel with
  | O => OutsideFragment
  | S f =>
      match ts with
      | [] => Parsed acc []
      | t :: r =>
          match isOp t with
          | Some op =>
              match operand r with
              | Parsed e r' => chain f operand isOp (EBinary op acc e) r'
              | failure => failure
              end
          | None => Parsed acc ts
          end
      end
  end.

(** What may stand behind a primary expression [e]: an empty argument
    list behind an identifier makes a call; [++] or [--] behind a literal
    is an early error (a literal is no assignment target); any other
    argument list or update operator leaves the fragment. *)
Definition postfix (e : expr) (rest : list token) : parsed :=
  match rest with
  | TLParen :: TRParen :: r =>
      match e, r with
      | EIdent _, TLParen :: _ => OutsideFragment
      | EIdent _, TUpdate :: _ => OutsideFragment
      | EIdent x, _ => Parsed (ECall x) r
      | _, _ => OutsideFragment
      end
  | TLParen :: _ => OutsideFragment
  | TUpdate :: _ =>
      match e with
      | ENum _ => SyntaxError
      | _ => OutsideFragment
      end
  | _ => Parsed e rest
  end.

(** Additive expressions by recursive descent.  A [/] where an operand
    is expected would start a regular expression literal, and [++] or [--]
    there would update what follows, which a literal does not allow. *)
Fixpoint parseAdditive (fuel : nat) (ts : list token) : parsed :=
  match fuel with
  | O => OutsideFragment
  | S f =>
      let primary (ts : list token) : parsed :=
        match ts with
        | TNum v :: r => postfix (ENum v) r
        | TIdent x :: r => postfix (EIdent x) r
        | TLParen :: r =>
            match parseAdditive f r with
            | Parsed e (TRParen :: r') => postfix e r'
            | Parsed _ _ => SyntaxError
            | failure => failure
            end
        | TSlash :: _ => OutsideFragment
        | TUpdate :: TNum _ :: _ => SyntaxError
        | TUpdate :: _ => OutsideFragment
        | _ => SyntaxError
        end in
      let unary :=
        fix unary (ts : list token) : parsed :=
          match ts with
          | TPlus :: r =>
              match unary r with
              | Parsed e r' => Parsed (EUnary UPlus e) r'
              | failure => failure
              end
          | TMinus :: r =>
              match unary r with
              | Parsed e r' => Parsed (EUnary UMinus e) r'
              | failure => failure
              end
          | _ => primary ts
          end in
      let multiplicative (ts : list token) : parsed :=
        match unary ts with
        | Parsed e r => chain f unary multiplicativeOp e r
        | failure => failure
        end in
      match multiplicative ts with
      | Parsed e r => chain f multiplicative additiveOp e r
      | failure => failure
      end
  end.

(** What a global identifier is bound to in the surrounding program.
    [BoundFunction v ws] is a function of the program that, called without
    argument, assigns the numbers of [ws] to global variables and returns
    the number [v]. *)
Inductive Binding : Type :=
| Unbound
| BoundNumber (v : float)
| BoundUndefined
| BoundFunction (result : float) (writes : list (string * float))
| BoundOther.

(** The global scope in which the constructed function runs. *)
Definition Globals : Type := string -> Binding.

Inductive completion : Type :=
| Normal (v : float)
| Throw
| Unmodelled.

Definition applyUnop (op : unop) (a : float) : float :=
  match op with
  | UPlus => a
  | UMinus => PrimFloat.opp a
  end.

Definition applyBinop (op : binop) (a b : float) : float :=
  match op with
  | Add => PrimFloat.add a b
  | Sub => PrimFloat.sub a b
  | Mul => PrimFloat.mul a b
  | Div => PrimFloat.div a b
  end.

(** Evaluation in a program whose functions leave the global variables
    as they are, operands left to right; an unbound identifier raises a
    ReferenceError, the call of a number or of [undefined] a TypeError.
    The value [undefined] is represented by [NaN], which is what the
    operators of the fragment and [parseInt] convert it to.  The call of a
    function that assigns is left to [Effects.eval] below. *)
Fixpoint eval (g : Globals) (e : expr) : completion :=
  match e with
  | ENum v => Normal v
  | EIdent x =>
      match g x with
      | Unbound => Throw
      | BoundNumber v => Normal v
      | BoundUndefined => Normal nan
      | BoundFunction _ _ => Unmodelled
      | BoundOther => Unmodelled
      end
  | ECall x =>
      match g x with
      | Unbound => Throw
      | BoundNumber _ => Throw
      | BoundUndefined => Throw
      | BoundFunction v [] => Normal v
      | BoundFunction _ (_ :: _) => Unmodelled
      | BoundOther => Unmodelled
      end
  | EUnary op a =>
      match eval g a with
      | Normal v => Normal (applyUnop op v)
      | other => other
      end
  | EBinary op l r =>
      match eval g l with
      | Normal a =>
          match eval g r with
          | Normal b => Normal (applyBinop op a b)
          | other => other
          end
      | other => other
      end
  end.

(** The expression of the body [return (text);], if it is one. *)
Definition parseReturn (text : string) : parsed :=
  match lex text with
  | None => OutsideFragment
  | Some ts =>
      let body := TLParen :: ts ++ [TRParen] in
      match parseAdditive (S (List.length body)) body with
      | Parsed e [] => Parsed e []
      | Parsed _ _ => SyntaxError
      | failure => failure
      end
  end.

(** Building the function from [text] and calling it. *)
Definition callReturn (g : Globals) (text : string) : completion :=
  match parseReturn text with
  | Parsed e _ => eval g e
  | SyntaxError => Throw
  | OutsideFragment => Unmodelled
  end.

End JsEngine.

(* ================================================================== *)
(** ** The expression resolver and the path compiler *)

Import JsString JsNumber JsEngine.

(** [["M", x, y] | ["L", x, y]] *)
Inductive Command : Type := M | L.

Definition commandTag (cmd : Command) : string :=
  match cmd with M => "M" | L => "L" end.

Definition PathCommand : Type := Command * string * string.

Record Style : Type := mkStyle {
  strokeWidth : string;
  stroke : string;
  fill : string
}.

(** One element of [Paths]. *)
Record Path : Type := mkPath {
  name : option string;
  show : option bool;
  style : Style;
  path : list PathCommand
}.

Definition Paths : Type := list Path.

(** An element of the result of [createSvgPaths]: the same fields, with
    [path] turned into path data. *)
Record SvgPath : Type := mkSvgPath {
  svgName : option string;
  svgShow : option bool;
  svgStyle : Style;
  svgPath : string
}.

(** [.replace(/([\d.]+)%/g, (_, num) => `(${parseFloat(num)} / 100)`)]:
    a match is a maximal run of digits and dots followed by [%]. *)
Fixpoint replacePercentLiteralsFrom (skip : nat) (s : string) : string :=
  match s with
  | EmptyString => EmptyString
  | String c r =>
      match skip with
      | S k => replacePercentLiteralsFrom k r
      | O =>
          if isDigitOrDot c then
            let (num, rest) := span isDigitOrDot s in
            if startsWith (Ascii.eqb "%") rest
            then "(" ++ toString (parseFloat num) ++ " / 100)"
                 ++ replacePercentLiteralsFrom (length num) r
            else String c (replacePercentLiteralsFrom 0 r)
          else String c (replacePercentLiteralsFrom 0 r)
      end
  end.

Definition replacePercentLiterals (s : string) : string :=
  replacePercentLiteralsFrom 0 s.

(** [.replace(/width/g, width.toString())] *)
Definition substituteWidth (width : float) (s : string) : string :=
  replaceAll "width" (toString width) s.

(** [.replace(/height/g, height.toString())] *)
Definition substituteHeight (height : float) (s : string) : string :=
  replaceAll "height" (toString height) s.

(** The constant [replaced] of [evalExpression]. *)
Definition replaced (expr : string) (width height : float) : string :=
  replaceAll "100" "100"
    (substituteHeight height
       (substituteWidth width
          (replacePercentLiterals expr))).

(** [evalExpression]: the value of the expression, [0] when building or
    calling the function throws; [None] when the text is outside the
    modelled fragment. *)
Definition evalExpression (g : Globals) (expr : string) (width height : float)
  : option float :=
  match callReturn g (replaced expr width height) with
  | Normal v => Some v
  | Throw => Some zero
  | Unmodelled => None
  end.

(** [/[+\-*/]/] *)
Definition isOperatorChar (c : ascii) : bool :=
  (Ascii.eqb c "+" || Ascii.eqb c "-" || Ascii.eqb c "*" || Ascii.eqb c "/")%bool.

(** [x.includes("%") || x.match(/[+\-*/]/)] *)
Definition isExpression (operand : string) : bool :=
  (includesChar "%" operand || existsb isOperatorChar operand)%bool.

(** [x.replace(/%/g, "* width / 100")], and the same with [height] for
    [y]: [dimension] is the symbol that percentages refer to. *)
Definition expressionText (dimension : string) (operand : string) : string :=
  replaceAll "%" ("* " ++ dimension ++ " / 100") operand.

(** [numX] and [numY]: the operand as a number. *)
Definition operandValue (g : Globals) (dimension : string) (operand : string)
    (width height : float) : option float :=
  if isExpression operand
  then evalExpression g (expressionText dimension operand) width height
  else Some (parseFloat operand).

(** [`${parseInt(num)}`] *)
Definition integerText (num : float) : string := toString (parseInt num).

(** The text of one command, [`${cmd} ${parseInt(numX)},${parseInt(numY)}`]. *)
Definition compileCommand (g : Globals) (width height : float) (c : PathCommand)
  : option string :=
  let '(cmd, x, y) := c in
  match operandValue g "width" x width height with
  | None => None
  | Some numX =>
      match operandValue g "height" y width height with
      | None => None
      | Some numY =>
          Some (commandTag cmd ++ " " ++ integerText numX ++ "," ++ integerText numY)
      end
  end.

(** [xs.map(f)] for an [f] that may leave the modelled fragment. *)
Fixpoint mapM {A B : Type} (f : A -> option B) (xs : list A) : option (list B) :=
  match xs with
  | [] => Some []
  | x :: r =>
      match f x with
      | None => None
      | Some y => option_map (cons y) (mapM f r)
      end
  end.

(** The path data of one sub-path: its commands joined by a space. *)
Definition compilePath (g : Globals) (width height : float) (p : Path)
  : option SvgPath :=
  option_map
    (fun cs => mkSvgPath (name p) (show p) (style p) (join " " cs))
    (mapM (compileCommand g width height) (path p)).

(** [createSvgPaths({ paths, width, height })] *)
Definition createSvgPaths (g : Globals) (paths : Paths) (width height : float)
  : option (list SvgPath) :=
  mapM (compilePath g width height) paths.

(* ================================================================== *)
(** ** Compilation in a program whose functions assign *)

(** The same functions with the global scope passed along: an operand that
    calls a function of the program leaves the scope that the function
    leaves, and the next operand is evaluated in it. *)
Module Effects.

(** The global scope after [x = v]. *)
Definition assign (g : Globals) (write : string * float) : Globals :=
  fun y => if String.eqb y (fst write) then BoundNumber (snd write) else g y.

Definition assignAll (writes : list (string * float)) (g : Globals) : Globals :=
  fold_left assign writes g.

Fixpoint eval (g : Globals) (e : expr) : completion * Globals :=
  match e with
  | ENum v => (Normal v, g)
  | EIdent x =>
      match g x with
      | Unbound => (Throw, g)
      | BoundNumber v => (Normal v, g)
      | BoundUndefined => (Normal nan, g)
      | BoundFunction _ _ => (Unmodelled, g)
      | BoundOther => (Unmodelled, g)
      end
  | ECall x =>
      match g x with
      | Unbound => (Throw, g)
      | BoundNumber _ => (Throw, g)
      | BoundUndefined => (Throw, g)
      | BoundFunction v writes => (Normal v, assignAll writes g)
      | BoundOther => (Unmodelled, g)
      end
  | EUnary op a =>
      match eval g a with
      | (Normal v, g1) => (Normal (applyUnop op v), g1)
      | other => other
      end
  | EBinary op l r =>
      match eval g l with
      | (Normal a, g1) =>
          match eval g1 r with
          | (Normal b, g2) => (Normal (applyBinop op a b), g2)
          | other => other
          end
      | other => other
      end
  end.

Definition callReturn (g : Globals) (text : string) : completion * Globals :=
  match parseReturn text with
  | Parsed e _ => eval g e
  | SyntaxError => (Throw, g)
  | OutsideFragment => (Unmodelled, g)
  end.

Definition evalExpression (g : Globals) (expr : string) (width height : float)
  : option float * Globals :=
  match callReturn g (replaced expr width height) with
  | (Normal v, g1) => (Some v, g1)
  | (Throw, g1) => (Some zero, g1)
  | (Unmodelled, g1) => (None, g1)
  end.

Definition operandValue (g : Globals) (dimension : string) (operand : string)
    (width height : float) : option float * Globals :=
  if isExpression operand
  then evalExpression g (expressionText dimension operand) width height
  else (Some (parseFloat operand), g).

(** [parsedX] is computed before [parsedY]. *)
Definition compileCommand (width height : float) (g : Globals) (c : PathCommand)
  : option string * Globals :=
  let '(cmd, x, y) := c in
  match operandValue g "width" x width height with
  | (None, g1) => (None, g1)
  | (Some numX, g1) =>
      match operandValue g1 "height" y width height with
      | (None, g2) => (None, g2)
      | (Some numY, g2) =>
          (Some (commandTag cmd ++ " " ++ integerText numX ++ "," ++ integerText numY),
           g2)
      end
  end.

(** [xs.map(f)], the elements in order. *)
Fixpoint mapM {A B : Type} (f : Globals -> A -> option B * Globals)
    (g : Globals) (xs : list A) : option (list B) * Globals :=
  match xs with
  | [] => (Some [], g)
  | x :: r =>
      match f g x with
      | (None, g1) => (None, g1)
      | (Some y, g1) =>
          match mapM f g1 r with
          | (ys, g2) => (option_map (cons y) ys, g2)
          end
      end
  end.

Definition compilePath (width height : float) (g : Globals) (p : Path)
  : option SvgPath * Globals :=
  match mapM (compileCommand width height) g (path p) with
  | (cs, g1) =>
      (option_map (fun cs => mkSvgPath (name p) (show p) (style p) (join " " cs)) cs,
       g1)
  end.

Definition createSvgPaths (g : Globals) (paths : Paths) (width height : float)
  : option (list SvgPath) * Globals :=
  mapM (compilePath width height) g paths.

End Effects.

(* ================================================================== *)
(** ** The sink: [createSvgElement] *)

(** A [<path>] child of the target; [vectorEffect] and [shapeRendering]
    are the same constants on every one of them. *)
Record PathElement : Type := mkPathElement {
  d : string;
  styleFill : string;
  styleStroke : string;
  styleStrokeWidth : string
}.

(** The target [<svg>] element: its attributes ([None] for an absent
    one), its [<path>] descendants, and whether a backdrop [<div>] follows
    it (the styling of that mask is not modelled). *)
Record SvgElement : Type := mkSvgElement {
  dataWidth : option string;
  dataHeight : option string;
  viewBox : option string;
  pathChildren : list PathElement;
  backdrop : bool
}.

(** [prev != text] for [prev = el.getAttribute(...)], which is [null]
    when the attribute is absent. *)
Definition attributeDiffers (prev : option string) (text : string) : bool :=
  match prev with
  | None => true
  | Some p => negb (String.eqb p text)
  end.

(** [prevWidth != width.toString() || prevHeight != height.toString()] *)
Definition dimensionsChanged (el : SvgElement) (width height : float) : bool :=
  (attributeDiffers (dataWidth el) (toString width)
   || attributeDiffers (dataHeight el) (toString height))%bool.

Definition toPathElement (p : SvgPath) : PathElement :=
  mkPathElement (svgPath p) (fill (svgStyle p)) (stroke (svgStyle p))
    (strokeWidth (svgStyle p)).

(** [createSvgElement]: the element afterwards, and the compiled paths
    handed to the DOM when the call rendered ([None] when it skipped). *)
Definition createSvgElement (g : Globals) (el : SvgElement) (paths : Paths)
    (width height : float) (enableBackdropBlur enableViewBox : bool)
  : option (SvgElement * option (list SvgPath)) :=
  if dimensionsChanged el width height then
    match createSvgPaths g paths width height with
    | None => None
    | Some compiled =>
        Some ({| dataWidth := Some (toString width);
                 dataHeight := Some (toString height);
                 viewBox :=
                   if enableViewBox
                   then Some ("0 0 " ++ toString width ++ " " ++ toString height)
                   else viewBox el;
                 pathChildren := List.map toPathElement compiled;
                 backdrop := (enableBackdropBlur || backdrop el)%bool |},
              Some compiled)
    end
  else Some (el, None).

(* ================================================================== *)
(** ** The scheduler: [setupSvgRenderer] *)

(** [getBoundingClientRect()]: width and height. *)
Definition Box : Type := (float * float)%type.

(** An ancestor of the target with the computed style that
    [findRelativeParent] reads. *)
Record Ancestor : Type := mkAncestor {
  animationName : string;
  transitionProperty : string;
  ancestorBox : Box
}.

(** The target element, or its [i]-th ancestor ([0] is the parent). *)
Inductive Node : Type :=
| Target
| AncestorAt (i : nat).

Definition Node_eqb (a b : Node) : bool :=
  match a, b with
  | Target, Target => true
  | AncestorAt i, AncestorAt j => Nat.eqb i j
  | _, _ => false
  end.

Definition isAnimated (a : Ancestor) : bool :=
  (negb (String.eqb (animationName a) "none")
   || (negb (String.eqb (transitionProperty a) "all")
       && negb (String.eqb (transitionProperty a) "none")))%bool.

(** [findRelativeParent]: the nearest ancestor, counted from [i], whose
    style shows an animation or a transition property. *)
Fixpoint findRelativeParent (i : nat) (chain : list Ancestor) : option nat :=
  match chain with
  | [] => None
  | a :: r => if isAnimated a then Some i else findRelativeParent (S i) r
  end.

Inductive Kind : Type := Transition | Animation.

Definition Kind_eqb (a b : Kind) : bool :=
  match a, b with
  | Transition, Transition | Animation, Animation => true
  | _, _ => false
  end.

(** What one call of [setupSvgRenderer] closes over, and whether its
    ResizeObserver is connected. *)
Record Session : Type := mkSession {
  sPaths : Paths;
  sBackdropBlur : bool;
  sViewBox : bool;
  parentElement : Node;
  observing : bool
}.

(** One run of a [transitionstart] or [animationstart] handler: its
    variable [running], whether [loop] is queued for the next animation
    frame, and whether its one-shot end listener is still registered. *)
Record Loop : Type := mkLoop {
  loopSession : nat;
  loopKind : Kind;
  running : bool;
  scheduled : bool;
  endListener : bool
}.

Record World : Type := mkWorld {
  el : SvgElement;
  elBox : Box;
  ancestors : list Ancestor;
  sessions : list Session;
  loops : list Loop;
  elRender : option nat;
  sinkLog : list (list SvgPath)
}.

Definition withEl (w : World) (e : SvgElement) (out : option (list SvgPath)) : World :=
  mkWorld e (elBox w) (ancestors w) (sessions w) (loops w) (elRender w)
    (match out with
     | Some compiled => sinkLog w ++ [compiled]
     | None => sinkLog w
     end).

Definition withLoops (w : World) (ls : list Loop) : World :=
  mkWorld (el w) (elBox w) (ancestors w) (sessions w) ls (elRender w) (sinkLog w).

Definition withSessions (w : World) (ss : list Session) : World :=
  mkWorld (el w) (elBox w) (ancestors w) ss (loops w) (elRender w) (sinkLog w).

Definition boxOf (w : World) (n : Node) : Box :=
  match n with
  | Target => elBox w
  | AncestorAt i =>
      match nth_error (ancestors w) i with
      | Some a => ancestorBox a
      | None => (zero, zero)
      end
  end.

(** The closure [render] of session [sid]. *)
Definition render (g : Globals) (sid : nat) (w : World) : option World :=
  match nth_error (sessions w) sid with
  | None => Some w
  | Some s =>
      let (width, height) := elBox w in
      match createSvgElement g (el w) (sPaths s) width height
              (sBackdropBlur s) (sViewBox s) with
      | None => None
      | Some (e, out) => Some (withEl w e out)
      end
  end.

Definition andThen (a : option World) (f : World -> option World) : option World :=
  match a with
  | Some w => f w
  | None => None
  end.

Fixpoint repeatRender (g : Globals) (sid : nat) (n : nat) (w : World) : option World :=
  match n with
  | O => Some w
  | S k => andThen (render g sid w) (repeatRender g sid k)
  end.

(** [parentWidth().toString() == el.getAttribute("data-width") &&
     parentHeight().toString() == el.getAttribute("data-height")] *)
Definition parentSettled (w : World) (s : Session) : bool :=
  let (pw, ph) := boxOf w (parentElement s) in
  (negb (attributeDiffers (dataWidth (el w)) (toString pw))
   && negb (attributeDiffers (dataHeight (el w)) (toString ph)))%bool.

(** The handle returned by [setupSvgRenderer]: its only member is
    [destroy]. *)
Record Handle : Type := mkHandle { handleSession : nat }.

(** [setupSvgRenderer({ el, paths, enableBackdropBlur, enableViewBox })] *)
Definition setupSvgRenderer (paths : Paths) (enableBackdropBlur enableViewBox : bool)
    (w : World) : World * Handle :=
  let parent :=
    match findRelativeParent 0 (ancestors w) with
    | Some i => AncestorAt i
    | None => Target
    end in
  let sid := List.length (sessions w) in
  (mkWorld (el w) (elBox w) (ancestors w)
     (sessions w ++ [mkSession paths enableBackdropBlur enableViewBox parent true])
     (loops w) (Some sid) (sinkLog w),
   mkHandle sid).

Definition disconnect (s : Session) : Session :=
  mkSession (sPaths s) (sBackdropBlur s) (sViewBox s) (parentElement s) false.

Fixpoint updateAt {A : Type} (i : nat) (f : A -> A) (xs : list A) : list A :=
  match xs, i with
  | [], _ => []
  | x :: r, O => f x :: r
  | x :: r, S k => x :: updateAt k f r
  end.

(** [handle.destroy()]: [observer.disconnect()]. *)
Definition destroy (h : Handle) (w : World) : World :=
  withSessions w (updateAt (handleSession h) disconnect (sessions w)).

(** The [transitionstart] or [animationstart] listener of session [sid]:
    a fresh [running], a first call of [loop], and the end listener. *)
Definition startHandler (g : Globals) (k : Kind) (sid : nat) (w : World) : option World :=
  andThen (render g sid w)
    (fun w1 => Some (withLoops w1 (loops w1 ++ [mkLoop sid k true true true]))).

(** Dispatch of a start event at node [n] to sessions [sid], [sid + 1], ... *)
Fixpoint dispatchStart (g : Globals) (k : Kind) (n : Node) (sid : nat)
    (ss : list Session) (w : World) : option World :=
  match ss with
  | [] => Some w
  | s :: r =>
      andThen (if Node_eqb (parentElement s) n then startHandler g k sid w else Some w)
        (dispatchStart g k n (S sid) r)
  end.

(** The end listener of a loop, fired by an end event of kind [k] at
    node [n]; being registered with [once], it is removed whatever the
    comparison says. *)
Definition endHandler (w : World) (k : Kind) (n : Node) (l : Loop) : Loop :=
  match nth_error (sessions w) (loopSession l) with
  | Some s =>
      if (endListener l && Kind_eqb (loopKind l) k && Node_eqb (parentElement s) n)%bool
      then mkLoop (loopSession l) (loopKind l)
             (if parentSettled w s then false else running l)
             (scheduled l) false
      else l
  | None => l
  end.

(** [loop] run as an animation frame callback. *)
Definition frameCallback (g : Globals) (l : Loop) (w : World) : option World :=
  if (scheduled l && running l)%bool then render g (loopSession l) w else Some w.

Definition afterFrame (l : Loop) : Loop :=
  if (scheduled l && negb (running l))%bool
  then mkLoop (loopSession l) (loopKind l) (running l) false (endListener l)
  else l.

Fixpoint runCallbacks (g : Globals) (ls : list Loop) (w : World) : option World :=
  match ls with
  | [] => Some w
  | l :: r => andThen (frameCallback g l w) (runCallbacks g r)
  end.

Definition setBox (n : Node) (b : Box) (w : World) : World :=
  match n with
  | Target =>
      mkWorld (el w) b (ancestors w) (sessions w) (loops w) (elRender w) (sinkLog w)
  | AncestorAt i =>
      mkWorld (el w) (elBox w)
        (updateAt i (fun a => mkAncestor (animationName a) (transitionProperty a) b)
           (ancestors w))
        (sessions w) (loops w) (elRender w) (sinkLog w)
  end.

(** What can happen to a page that uses the renderer.  [StartEvent k n]
    and [EndEvent k n] are the delivery of an event to the listeners of
    node [n]; an event that bubbles is delivered to one node after the
    other. *)
Inductive Event : Type :=
| Setup (paths : Paths) (enableBackdropBlur enableViewBox : bool)
| Destroy (h : Handle)
| CallRender
| Resized (n : Node) (b : Box)
| ResizeNotification (sid : nat) (entries : nat)
| StartEvent (k : Kind) (n : Node)
| EndEvent (k : Kind) (n : Node)
| AnimationFrame.

Definition step (g : Globals) (w : World) (e : Event) : option World :=
  match e with
  | Setup paths blur vb => Some (fst (setupSvgRenderer paths blur vb w))
  | Destroy h => Some (destroy h w)
  | CallRender =>
      match elRender w with
      | Some sid => render g sid w
      | None => Some w
      end
  | Resized n b => Some (setBox n b w)
  | ResizeNotification sid entries =>
      match nth_error (sessions w) sid with
      | Some s => if observing s then repeatRender g sid entries w else Some w
      | None => Some w
      end
  | StartEvent k n => dispatchStart g k n 0 (sessions w) w
  | EndEvent k n => Some (withLoops w (List.map (endHandler w k n) (loops w)))
  | AnimationFrame =>
      andThen (runCallbacks g (loops w) w)
        (fun w1 => Some (withLoops w1 (List.map afterFrame (loops w1))))
  end.

Fixpoint run (g : Globals) (w : World) (es : list Event) : option World :=
  match es with
  | [] => Some w
  | e :: r => andThen (step g w e) (fun w1 => run g w1 r)
  end.

(** A page whose target element has never been rendered. *)
Definition freshElement : SvgElement := mkSvgElement None None None [] false.

Definition initialWorld (box : Box) (chain : list Ancestor) : World :=
  mkWorld freshElement box chain [] [] None [].

(* ================================================================== *)
(** ** The identifiers an evaluation reads *)

Fixpoint exprIdentifiers (e : expr) : list string :=
  match e with
  | ENum _ => []
  | EIdent x => [x]
  | ECall x => [x]
  | EUnary _ a => exprIdentifiers a
  | EBinary _ l r => exprIdentifiers l ++ exprIdentifiers r
  end.

(** The global identifiers named by the body [return (text);]. *)
Definition textIdentifiers (text : string) : list string :=
  match parseReturn text with
  | Parsed e _ => exprIdentifiers e
  | _ => []
  end.

Definition operandIdentifiers (dimension operand : string) (width height : float)
  : list string :=
  if isExpression operand
  then textIdentifiers (replaced (expressionText dimension operand) width height)
  else [].

Definition commandIdentifiers (width height : float) (c : PathCommand) : list string :=
  let '(_, x, y) := c in
  operandIdentifiers "width" x width height
  ++ operandIdentifiers "height" y width height.

(** The global identifiers that compiling [paths] looks up. *)
Definition pathsIdentifiers (paths : Paths) (width height : float) : list string :=
  flat_map (fun p => flat_map (commandIdentifiers width height) (path p)) paths.

(** The functions of the program that [ids] name assign nothing. *)
Definition assignNothing (g : Globals) (ids : list string) : Prop :=
  forall x v ws, In x ids -> g x = BoundFunction v ws -> ws = [].

(* ================================================================== *)
(** ** Observations on a run *)

(** The number of times compiled paths were handed to the DOM. *)
Definition sinkCalls (w : World) : nat := List.length (sinkLog w).

(** From [w] to [w1] the sink was not called less often, and the target
    element (with its cache attributes) changed only if the sink was
    called. *)
Definition cacheFollowsSink (w w1 : World) : Prop :=
  (sinkCalls w <= sinkCalls w1)%nat /\ (sinkCalls w1 = sinkCalls w -> el w1 = el w).

(** The scheduler's own state is what it was. *)
Definition sameSchedule (w w1 : World) : Prop :=
  elBox w1 = elBox w /\ ancestors w1 = ancestors w /\ sessions w1 = sessions w
  /\ loops w1 = loops w /\ elRender w1 = elRender w.

(* ================================================================== *)
(** ** Pages used in the examples *)

(** A global scope holding the value properties [NaN], [Infinity] and
    [undefined] and nothing else that operands could name. *)
Definition plainGlobals : Globals :=
  fun x =>
    if String.eqb x "NaN" then BoundNumber nan
    else if String.eqb x "Infinity" then BoundNumber infinity
    else if String.eqb x "undefined" then BoundUndefined
    else Unbound.

(** The same scope after the page has run [var scale = v]. *)
Definition withScale (v : float) : Globals :=
  fun x => if String.eqb x "scale" then BoundNumber v else plainGlobals x.

Definition plainStyle : Style := mkStyle "1" "black" "none".

Definition onePath (cs : list PathCommand) : Paths :=
  [mkPath None None plainStyle cs].

(** The sub-path [[M 10% 10%, L 90% 50%]]. *)
Definition diagonal : Paths := onePath [(M, "10%", "10%"); (L, "90%", "50%")].

(** A target of 200 by 100 pixels without animated ancestor, never
    rendered. *)
Definition page200x100 : World := initialWorld (ofZ 200, ofZ 100) [].

(** The target with 200 by 100 in its cache attributes. *)
Definition cachedAt200x100 : SvgElement :=
  mkSvgElement (Some "200") (Some "100") None [] false.

(** [diagonal] compiled at 200 by 100 and at 300 by 100. *)
Definition diagonalAt200x100 : list SvgPath :=
  [mkSvgPath None None plainStyle "M 20,10 L 180,50"].

Definition diagonalAt300x100 : list SvgPath :=
  [mkSvgPath None None plainStyle "M 30,10 L 270,50"].

(** The page after [setupSvgRenderer({ el, paths: diagonal })]. *)
Definition pageSetUp : World :=
  fst (setupSvgRenderer diagonal false false page200x100).

Definition diagonalSession : Session := mkSession diagonal false false Target true.

(** The same page during a transition of the target: one polling loop. *)
Definition pagePolling : World :=
  mkWorld cachedAt200x100 (ofZ 200, ofZ 100) [] [diagonalSession]
    [mkLoop 0 Transition true true true] (Some 0%nat) [diagonalAt200x100].

(** The same scope after the page has also run [var offset = 7]. *)
Definition withScaleAndOffset (v : float) : Globals :=
  fun x => if String.eqb x "offset" then BoundNumber (ofZ 7) else withScale v x.

(** A page that has run [var scale = 2; function five() { return 5 }]. *)
Definition withFive : Globals :=
  fun x => if String.eqb x "five" then BoundFunction (ofZ 5) [] else withScale (ofZ 2) x.

(** The same page with [var offset = 7] as well. *)
Definition withFiveAndOffset : Globals :=
  fun x => if String.eqb x "offset" then BoundNumber (ofZ 7) else withFive x.

(** A page that has run
    [var scale = 2; function bump() { scale = 3; return 0 }]. *)
Definition withBump : Globals :=
  fun x =>
    if String.eqb x "bump" then BoundFunction zero [("scale", ofZ 3)]
    else withScale (ofZ 2) x.

(** A sub-path that reads [scale] and calls [five], with one operand that
    does not parse. *)
Definition scaledPath : Paths :=
  onePath [(M, "scale*10", "five()*2"); (L, "width +", "50%")].

(** A sub-path that reads [scale] and calls [bump]. *)
Definition bumpingPath : Paths := onePath [(M, "scale*10", "bump()*1")].

(* ================================================================== *)
(** ** Further observations *)

(** The cache attributes hold the current box of the target. *)
Definition cacheCurrent (w : World) : Prop :=
  dimensionsChanged (el w) (fst (elBox w)) (snd (elBox w)) = false.

(** Whether an event changes the box of the target element. *)
Definition changesTargetBox (e : Event) : bool :=
  match e with
  | Resized Target _ => true
  | _ => false
  end.

(** Whether an event is a resize notification to the observer of [h]. *)
Definition notifies (h : Handle) (e : Event) : bool :=
  match e with
  | ResizeNotification sid _ => Nat.eqb sid (handleSession h)
  | _ => false
  end.

(** The sessions, numbered from [sid], whose listeners are on node [n]. *)
Fixpoint watchers (n : Node) (sid : nat) (ss : list Session) : list nat :=
  match ss with
  | [] => []
  | s :: r =>
      if Node_eqb (parentElement s) n
      then sid :: watchers n (S sid) r
      else watchers n (S sid) r
  end.

(** The loop that a start handler of kind [k] creates for session [sid]. *)
Definition freshLoop (k : Kind) (sid : nat) : Loop := mkLoop sid k true true true.

(** A sub-path under another name and visibility. *)
Definition relabel (nm : Path -> option string) (sh : Path -> option bool) (p : Path)
  : Path :=
  mkPath (nm p) (sh p) (style p) (path p).

(** From [w] to [w1] the sink was called at most once; if it was, the
    target shows the paths of one of the sessions, compiled for the box of
    the target, and the cache holds that box. *)
Definition renderedAtMostOnce (g : Globals) (w w1 : World) : Prop :=
  (el w1 = el w /\ sinkLog w1 = sinkLog w)
  \/ (exists s c,
        In s (sessions w)
        /\ createSvgPaths g (sPaths s) (fst (elBox w)) (snd (elBox w)) = Some c
        /\ sinkLog w1 = (sinkLog w ++ [c])%list
        /\ pathChildren (el w1) = List.map toPathElement c
        /\ cacheCurrent w1).

(** A page whose parent has the default style and whose grandparent has
    a transition on [width]. *)
Definition nestedChain : list Ancestor :=
  [mkAncestor "none" "all" (ofZ 200, ofZ 100);
   mkAncestor "none" "width" (ofZ 400, ofZ 300)].

(** Two sub-paths, the second one marked as hidden. *)
Definition twoPaths : Paths :=
  [mkPath (Some "frame") (Some true) plainStyle [(M, "0", "0"); (L, "100%", "0")];
   mkPath (Some "mark") (Some false) (mkStyle "2" "red" "blue") [(M, "50%", "50%")]].

(** [pagePolling] after an end event that found the target at 300 by
    100: the loop has lost its end listener and is still running. *)
Definition pageRunaway : World :=
  mkWorld cachedAt200x100 (ofZ 200, ofZ 100) [] [diagonalSession]
    [mkLoop 0 Transition true true false] (Some 0%nat) [diagonalAt200x100].

(** [pagePolling] after its loop has stopped and left the frame queue. *)
Definition pageStopped : World :=
  mkWorld cachedAt200x100 (ofZ 200, ofZ 100) [] [diagonalSession]
    [mkLoop 0 Transition false false false] (Some 0%nat) [diagonalAt200x100].

(** A new transition of the target while it grows to 300 by 100. *)
Definition secondTransition : list Event :=
  [Resized Target (ofZ 300, ofZ 100); StartEvent Transition Target; AnimationFrame;
   EndEvent Transition Target; AnimationFrame].

(** Two transitions of the target that overlap, up to the frame after
    the end of the first one: the page is laid out at 200 by 100, both
    transitions start, the target grows to 300 by 100, the first
    transition ends. *)
Definition overlappingTransitions : list Event :=
  [ResizeNotification 0 1; StartEvent Transition Target; StartEvent Transition Target;
   Resized Target (ofZ 300, ofZ 100); EndEvent Transition Target; AnimationFrame].

(** What a page may still see after a loop has lost its end listener. *)
Definition laterEvents : list Event :=
  [EndEvent Transition Target; Destroy (mkHandle 0); AnimationFrame;
   EndEvent Animation Target; AnimationFrame; AnimationFrame].

(* ================================================================== *)
(** ** Coordinates by outcome *)










(* ================================================================== *)
(** ** Percentages cut to integers *)

(** The decimal text of an integer. *)
Definition decimal (z : Z) : string := NilZero.string_of_int (Z.to_int z).

(** The path data of [diagonal] at [width] by [height] pixels, each
    coordinate the share of its dimension cut to an integer. *)
Definition diagonalCut (width height : Z) : string :=
  "M " ++ decimal (10 * width / 100) ++ "," ++ decimal (10 * height / 100)
  ++ " L " ++ decimal (90 * width / 100) ++ "," ++ decimal (50 * height / 100).

(** The x operand [operand], evaluated at [width] pixels, is a number
    whose integer text is that of [share * width / 100] cut to an integer;
    its text names neither the height nor a global identifier. *)
Definition widthShareCut (operand : string) (share width : Z) : bool :=
  let text :=
    substituteWidth (ofZ width)
      (replacePercentLiterals (expressionText "width" operand)) in
  (negb (includesChar "h" text)
   && match textIdentifiers (replaceAll "100" "100" text) with
      | [] => true
      | _ => false
      end
   && match callReturn plainGlobals (replaceAll "100" "100" text) with
      | Normal v => String.eqb (integerText v) (decimal (share * width / 100))
      | _ => false
      end)%bool.

(** The same for a y operand at [height] pixels. *)
Definition heightShareCut (operand : string) (share height : Z) : bool :=
  let written := replacePercentLiterals (expressionText "height" operand) in
  let text := substituteHeight (ofZ height) written in
  (negb (includesChar "w" written)
   && match textIdentifiers (replaceAll "100" "100" text) with
      | [] => true
      | _ => false
      end
   && match callReturn plainGlobals (replaceAll "100" "100" text) with
      | Normal v => String.eqb (integerText v) (decimal (share * height / 100))
      | _ => false
      end)%bool.

(** The integers from 0 to [n]. *)
Definition upTo (n : nat) : list Z := List.map Z.of_nat (List.seq 0 (S n)).

(* ================================================================== *)
(** * Properties *)

(** Closed facts are settled by running the definitions. *)
Ltac conjuncts := repeat match goal with |- _ /\ _ => split end.
Ltac evaluate := conjuncts; vm_compute; first [reflexivity | discriminate].

(** ** Lists and strings *)

Lemma mapM_app {A B : Type} (f : A -> option B) (xs ys : list A) (bs cs : list B) :
  mapM f xs = Some bs -> mapM f ys = Some cs -> mapM f (xs ++ ys) = Some (bs ++ cs)%list.
Proof.
  revert bs. induction xs as [|x xs IH]; intros bs Hx Hy; simpl in *.
  - inversion Hx; subst. exact Hy.
  - destruct (f x) as [b|]; [|discriminate].
    destruct (mapM f xs) as [bs'|] eqn:E; simpl in Hx; [|discriminate].
    inversion Hx; subst. rewrite (IH bs' eq_refl Hy). reflexivity.
Qed.

Lemma mapM_ext {A B : Type} (f h : A -> option B) (xs : list A) :
  (forall x, In x xs -> f x = h x) -> mapM f xs = mapM h xs.
Proof.
  induction xs as [|x xs IH]; intros H; simpl; [reflexivity|].
  rewrite (H x (or_introl eq_refl)), IH; [reflexivity|].
  intros y Hy. apply H. right. exact Hy.
Qed.

Lemma mapM_total {A B : Type} (f : A -> option B) (xs : list A) :
  (forall x, In x xs -> f x <> None) -> exists bs, mapM f xs = Some bs.
Proof.
  induction xs as [|x xs IH]; intros H; simpl.
  - exists []. reflexivity.
  - destruct (f x) as [b|] eqn:E.
    + destruct IH as [bs Hbs].
      * intros y Hy. apply H. right. exact Hy.
      * exists (b :: bs). rewrite Hbs. reflexivity.
    + exfalso. apply (H x (or_introl eq_refl)). exact E.
Qed.

Lemma prefix_head_mismatch (a c : ascii) (p s : string) :
  Ascii.eqb a c = false -> prefix (String a p) (String c s) = false.
Proof.
  intros H. simpl. destruct (ascii_dec a c) as [->|]; [|reflexivity].
  rewrite Ascii.eqb_refl in H. discriminate.
Qed.

(** A pattern is replaced wherever it stands: text before it that lacks
    the first character of the pattern is copied. *)
Lemma replaceAll_after_prefix (a : ascii) (p rep pre post : string) :
  existsb (Ascii.eqb a) pre = false ->
  replaceAllFrom (String a p) rep 0 (pre ++ post)
  = pre ++ replaceAllFrom (String a p) rep 0 post.
Proof.
  induction pre as [|c pre IH]; intros H; simpl in H |- *; [reflexivity|].
  apply orb_false_elim in H. destruct H as [Hc Hpre].
  destruct (ascii_dec a c) as [->|_].
  - rewrite Ascii.eqb_refl in Hc. discriminate.
  - rewrite (IH Hpre). reflexivity.
Qed.

Lemma string_append_empty (s : string) : s ++ EmptyString = s.
Proof. induction s as [|c s IH]; simpl; [reflexivity|rewrite IH; reflexivity]. Qed.

(** A pattern whose first character does not occur is not found. *)
Lemma replaceAll_absent (a : ascii) (p rep s : string) :
  includesChar a s = false -> replaceAll (String a p) rep s = s.
Proof.
  intros H. unfold replaceAll.
  rewrite <- (string_append_empty s) at 1.
  rewrite (replaceAll_after_prefix a p rep s EmptyString H).
  apply string_append_empty.
Qed.

Lemma prefix_single (a c : ascii) (r : string) :
  prefix (String a EmptyString) (String c r) = Ascii.eqb a c.
Proof.
  simpl. destruct (ascii_dec a c) as [->|Hne].
  - rewrite Ascii.eqb_refl. destruct r; reflexivity.
  - symmetry. apply Ascii.eqb_neq. exact Hne.
Qed.

Lemma prefix_append (p s : string) : prefix p (p ++ s) = true.
Proof.
  induction p as [|a p IH]; simpl.
  - destruct s; reflexivity.
  - destruct (ascii_dec a a) as [_|Hne]; [exact IH|]. exfalso. apply Hne. reflexivity.
Qed.

Lemma prefix_split (p s : string) :
  prefix p s = true -> exists r, s = p ++ r.
Proof.
  revert s. induction p as [|a p IH]; intros s H.
  - exists s. reflexivity.
  - destruct s as [|c s]; simpl in H; [discriminate|].
    destruct (ascii_dec a c) as [->|]; [|discriminate].
    destruct (IH s H) as [r ->]. exists r. reflexivity.
Qed.

Lemma string_length_append (a b : string) :
  length (a ++ b) = (length a + length b)%nat.
Proof. induction a as [|c a IH]; simpl; [reflexivity|rewrite IH; reflexivity]. Qed.

Lemma string_append_assoc (a b c : string) : (a ++ b) ++ c = a ++ (b ++ c).
Proof. induction a as [|x a IH]; simpl; [reflexivity|rewrite IH; reflexivity]. Qed.

Lemma replaceAllFrom_skip (pat rep q post : string) :
  replaceAllFrom pat rep (length q) (q ++ post) = replaceAllFrom pat rep 0 post.
Proof.
  induction q as [|c q IH]; simpl; [|exact IH].
  destruct post; reflexivity.
Qed.

(** At an occurrence of the pattern the replacement is written and the
    scan resumes behind the occurrence. *)
Lemma replaceAllFrom_match (a : ascii) (p rep post : string) :
  replaceAllFrom (String a p) rep 0 (String a p ++ post)
  = rep ++ replaceAllFrom (String a p) rep 0 post.
Proof.
  change (String a p ++ post) with (String a (p ++ post)).
  cbn [replaceAllFrom].
  change (String a (p ++ post)) with (String a p ++ post).
  rewrite prefix_append. cbn [length Nat.pred].
  rewrite replaceAllFrom_skip. reflexivity.
Qed.

(** ** The runtime on known values *)

(** Texts of numbers: integers, fractions, and the exponent forms below
    1e-6 and from 1e21 on. *)
Lemma toString_examples :
  List.map toString
    [ofZ 200; ofDecimal 2005 (-1); PrimFloat.div (ofZ 1) (ofZ 3);
     PrimFloat.add (ofDecimal 1 (-1)) (ofDecimal 2 (-1)); ofDecimal 1 21;
     ofDecimal 1 (-7); PrimFloat.opp (ofDecimal 25 (-1)); PrimFloat.div (ofZ 1) (ofZ 0);
     PrimFloat.div (ofZ 0) (ofZ 0); PrimFloat.opp zero]
  = ["200"; "200.5"; "0.3333333333333333"; "0.30000000000000004"; "1e+21";
     "1e-7"; "-2.5"; "Infinity"; "NaN"; "0"].
Proof. vm_compute. reflexivity. Qed.

Lemma parseFloat_examples :
  List.map (fun s => toString (parseFloat s))
    ["12.7"; "  -3.5e2px"; "abc"; "."; "5."; ".5"; "1.2.3"; "-Infinity"; EmptyString]
  = ["12.7"; "-350"; "NaN"; "NaN"; "5"; "0.5"; "1.2"; "-Infinity"; "NaN"].
Proof. vm_compute. reflexivity. Qed.

(** [parseInt] of a number cuts its text at the first character that is
    not a digit. *)
Lemma parseInt_examples :
  List.map (fun x => toString (parseInt x))
    [ofDecimal 127 (-1); PrimFloat.opp (ofDecimal 79 (-1)); ofDecimal 1 21;
     ofDecimal 15 (-8); infinity; nan; ofDecimal 5 (-1)]
  = ["12"; "-7"; "1"; "1"; "NaN"; "NaN"; "0"].
Proof. vm_compute. reflexivity. Qed.

(** The evaluator: values; syntax errors, reference errors and type
    errors; texts outside the modelled fragment. *)
Lemma callReturn_examples :
  List.map (callReturn (withScale (ofZ 2)))
    ["200/2-5"; "2*(3+4)*5-1/4"; "1)+(2"; "- -5"; "scale*10"; "0.5+.5"; "1e2*2";
     "200 +"; "((1)"; "1 2"; EmptyString; "foo+1"; "foo()"; "scale()";
     "010"; "10px+5"; "200-5px"; "5--200"; "(5)++"; "--5"; "2e+1"; "5.e";
     "undefined*2"; "undefined()";
     "--scale"; "scale++"; "alert(1)"; "1//2"; "/1/"; "0x10"; "1_0"; "1,2";
     "Math.PI"; "void-1"]
  = [Normal (ofZ 95); Normal (ofDecimal 6975 (-2)); Normal (ofZ 3); Normal (ofZ 5);
     Normal (ofZ 20); Normal (ofZ 1); Normal (ofZ 200);
     Throw; Throw; Throw; Throw; Throw; Throw; Throw;
     Throw; Throw; Throw; Throw; Throw; Throw; Normal (ofZ 20); Throw;
     Normal nan; Throw;
     Unmodelled; Unmodelled; Unmodelled; Unmodelled; Unmodelled; Unmodelled;
     Unmodelled; Unmodelled;
     Unmodelled; Unmodelled].
Proof. vm_compute. reflexivity. Qed.

(** ** The resolver and the compiler *)

(** Inside the modelled fragment the compiler returns: if every command of
    every sub-path is compiled, so is the descriptor. *)
Lemma createSvgPaths_total (g : Globals) (paths : Paths) (width height : float) :
  (forall p c, In p paths -> In c (path p) -> compileCommand g width height c <> None) ->
  exists compiled, createSvgPaths g paths width height = Some compiled.
Proof.
  intros H. unfold createSvgPaths. apply mapM_total. intros p Hp.
  unfold compilePath.
  destruct (mapM_total (compileCommand g width height) (path p) (fun c => H p c Hp))
    as [cs Hcs].
  rewrite Hcs. discriminate.
Qed.

(** Operands whose evaluation throws: a dangling operator, an unbound
    identifier, an unbalanced parenthesis, two operands in a row, a leading
    [*].  Each of them compiles to 0. *)
Lemma throwing_operands_examples :
  List.map (fun x => compileCommand plainGlobals (ofZ 200) (ofZ 100) (M, x, "width/2-5"))
    ["width +"; "foo+1"; "(1+2"; "1 2+"; "*5"]
  = [Some "M 0,95"; Some "M 0,95"; Some "M 0,95"; Some "M 0,95"; Some "M 0,95"].
Proof. vm_compute. reflexivity. Qed.

Lemma compileCommand_eq (g : Globals) (width height : float) (cmd : Command)
    (x y : string) (numX numY : float) :
  operandValue g "width" x width height = Some numX ->
  operandValue g "height" y width height = Some numY ->
  compileCommand g width height (cmd, x, y)
  = Some (commandTag cmd ++ " " ++ integerText numX ++ "," ++ integerText numY).
Proof.
  intros Hx Hy. unfold compileCommand. rewrite Hx, Hy. reflexivity.
Qed.

(** An operand whose evaluation throws resolves to [0]. *)
Lemma operandValue_throw (g : Globals) (dimension operand : string) (width height : float) :
  isExpression operand = true ->
  callReturn g (replaced (expressionText dimension operand) width height) = Throw ->
  operandValue g dimension operand width height = Some zero.
Proof.
  intros He Ht. unfold operandValue, evalExpression. rewrite He, Ht. reflexivity.
Qed.


(** C6, as the code has it: at 200 by 100 the x operand [50%] compiles to
    the integer coordinate 100, half of the width, for every command tag,
    y operand and global scope. *)
Theorem fifty_percent_of_width_200 :
  forall (g : Globals) (cmd : Command) (y : string),
    operandValue g "width" "50%" (ofZ 200) (ofZ 100) = Some (ofZ 100)
    /\ compileCommand g (ofZ 200) (ofZ 100) (cmd, "50%", y)
       = option_map (fun numY => commandTag cmd ++ " 100," ++ integerText numY)
           (operandValue g "height" y (ofZ 200) (ofZ 100)).
Proof.
  intros g cmd y.
  assert (Hx : operandValue g "width" "50%" (ofZ 200) (ofZ 100) = Some (ofZ 100))
    by (vm_compute; reflexivity).
  split; [exact Hx|].
  unfold compileCommand. rewrite Hx.
  destruct (operandValue g "height" y (ofZ 200) (ofZ 100)) as [numY|]; [|reflexivity].
  simpl option_map. replace (integerText (ofZ 100)) with "100" by (vm_compute; reflexivity).
  reflexivity.
Qed.

(** C6, counterexample: the coordinate is 100, not 50. *)
Lemma fifty_percent_is_not_50 :
  option_map integerText (operandValue plainGlobals "width" "50%" (ofZ 200) (ofZ 100))
  = Some "100"
  /\ compileCommand plainGlobals (ofZ 200) (ofZ 100) (M, "50%", "0") = Some "M 100,0"
  /\ option_map integerText (operandValue plainGlobals "width" "50%" (ofZ 200) (ofZ 100))
     <> Some "50".
Proof.
  evaluate.
Qed.

(** A division by zero is evaluated, to [Infinity], at all dimensions and
    in every global scope. *)
Lemma division_by_zero_value (g : Globals) (dimension : string) (width height : float) :
  operandValue g dimension "1/0" width height = Some infinity.
Proof. vm_compute. reflexivity. Qed.

Lemma integerText_infinity : integerText infinity = "NaN".
Proof. vm_compute. reflexivity. Qed.


(** An occurrence of [width] cannot overlap another one: in front of an
    occurrence, the pattern matches only where it matches the text before
    the occurrence. *)
Ltac nextCharacter pre :=
  let c := fresh "c" in
  destruct pre as [|c pre];
  [ vm_compute; reflexivity
  | cbn [append prefix]; destruct (ascii_dec _ c) as [_|_]; [|reflexivity] ].

Lemma prefix_width_inside (pre post : string) :
  pre <> EmptyString ->
  prefix "width" (pre ++ "width" ++ post) = prefix "width" pre.
Proof.
  intros H. destruct pre as [|c pre]; [contradiction|].
  cbn [append prefix]. destruct (ascii_dec _ c) as [_|_]; [|reflexivity].
  do 4 nextCharacter pre.
  destruct pre; reflexivity.
Qed.

Lemma prefix_height_inside (pre post : string) :
  pre <> EmptyString ->
  prefix "height" (pre ++ "height" ++ post) = prefix "height" pre.
Proof.
  intros H. destruct pre as [|c pre]; [contradiction|].
  cbn [append prefix]. destruct (ascii_dec _ c) as [_|_]; [|reflexivity].
  do 5 nextCharacter pre.
  destruct pre; reflexivity.
Qed.

(** For such a pattern, the text before an occurrence, the occurrence and
    the text behind it are rewritten one after the other. *)
Lemma replaceAllFrom_occurrence (a : ascii) (p rep : string) :
  (forall pre post, pre <> EmptyString ->
     prefix (String a p) (pre ++ String a p ++ post) = prefix (String a p) pre) ->
  forall (n : nat) (pre post : string),
    (length pre <= n)%nat ->
    replaceAllFrom (String a p) rep 0 (pre ++ String a p ++ post)
    = replaceAllFrom (String a p) rep 0 pre ++ rep
      ++ replaceAllFrom (String a p) rep 0 post.
Proof.
  intros Hborder. induction n as [|n IH]; intros pre post Hn.
  - destruct pre; [|simpl in Hn; lia].
    cbn [append]. exact (replaceAllFrom_match a p rep post).
  - destruct pre as [|c r].
    + cbn [append]. exact (replaceAllFrom_match a p rep post).
    + change (String c r ++ String a p ++ post)
        with (String c (r ++ String a p ++ post)).
      cbn [replaceAllFrom].
      change (String c (r ++ String a p ++ post))
        with (String c r ++ String a p ++ post).
      rewrite (Hborder (String c r) post) by discriminate.
      destruct (prefix (String a p) (String c r)) eqn:Ep.
      * destruct (prefix_split _ _ Ep) as [rest Hrest].
        change (String a p ++ rest) with (String a (p ++ rest)) in Hrest.
        injection Hrest as Hc Hr. subst c r. cbn [length Nat.pred].
        rewrite (string_append_assoc p rest (String a p ++ post)).
        rewrite !replaceAllFrom_skip.
        rewrite IH.
        -- rewrite (string_append_assoc rep). reflexivity.
        -- simpl in Hn. rewrite string_length_append in Hn. lia.
      * rewrite IH by (simpl in Hn; lia). reflexivity.
Qed.

(** C7, as the code has it: the symbols are replaced wherever their
    letters stand, also inside a longer identifier.  For every text before
    an occurrence and every text behind it, the occurrence is replaced by
    the dimension, and the texts before and behind it are rewritten as on
    their own. *)
Theorem substitution_replaces_every_occurrence :
  forall (width height : float) (pre post : string),
    substituteWidth width (pre ++ "width" ++ post)
    = substituteWidth width pre ++ toString width ++ substituteWidth width post
    /\ substituteHeight height (pre ++ "height" ++ post)
       = substituteHeight height pre ++ toString height
         ++ substituteHeight height post.
Proof.
  intros width height pre post.
  unfold substituteWidth, substituteHeight, replaceAll. split.
  - apply (replaceAllFrom_occurrence "w" "idth" (toString width) prefix_width_inside
             (length pre)). apply Nat.le_refl.
  - apply (replaceAllFrom_occurrence "h" "eight" (toString height) prefix_height_inside
             (length pre)). apply Nat.le_refl.
Qed.

(** C7, on identifiers: [show_width], [wwidth], [halfwidth] and
    [viewheight] are rewritten. *)
Lemma substitution_inside_identifiers_examples :
  List.map (substituteWidth (ofZ 200))
    ["show_width"; "wwidth"; "halfwidth"; "widthwidth"; "width_of_width"]
  = ["show_200"; "w200"; "half200"; "200200"; "200_of_200"]
  /\ List.map (substituteHeight (ofZ 100)) ["viewheight"; "hheight"; "heightheight"]
     = ["view100"; "h100"; "100100"].
Proof.
  evaluate.
Qed.

(** C7, counterexample: [height] inside [heightened] and [width] inside
    [bandwidth] are replaced, so the texts handed to the evaluator are
    [100ened] and [band200]. *)
Lemma partial_occurrence_is_replaced :
  substituteHeight (ofZ 100) "heightened" = "100ened"
  /\ substituteWidth (ofZ 200) "bandwidth" = "band200"
  /\ replaced "heightened*2" (ofZ 200) (ofZ 100) = "100ened*2"
  /\ replaced "bandwidth*2" (ofZ 200) (ofZ 100) = "band200*2".
Proof.
  evaluate.
Qed.

(** Evaluation reads the global scope at the identifiers of the
    expression and nowhere else. *)
Lemma eval_ext (g1 g2 : Globals) (e : expr) :
  (forall x, In x (exprIdentifiers e) -> g1 x = g2 x) -> eval g1 e = eval g2 e.
Proof.
  induction e as [v|x|x|op a IH|op l IHl r IHr]; intros H; simpl in *.
  - reflexivity.
  - rewrite (H x (or_introl eq_refl)). reflexivity.
  - rewrite (H x (or_introl eq_refl)). reflexivity.
  - rewrite (IH H). reflexivity.
  - rewrite IHl, IHr; [reflexivity| |]; intros x Hx; apply H, in_or_app; auto.
Qed.

Lemma callReturn_ext (g1 g2 : Globals) (text : string) :
  (forall x, In x (textIdentifiers text) -> g1 x = g2 x) ->
  callReturn g1 text = callReturn g2 text.
Proof.
  unfold callReturn, textIdentifiers. intros H.
  destruct (parseReturn text) as [e rest| |]; [|reflexivity|reflexivity].
  apply eval_ext. exact H.
Qed.

Lemma operandValue_ext (g1 g2 : Globals) (dimension operand : string)
    (width height : float) :
  (forall x, In x (operandIdentifiers dimension operand width height) -> g1 x = g2 x) ->
  operandValue g1 dimension operand width height
  = operandValue g2 dimension operand width height.
Proof.
  unfold operandValue, operandIdentifiers, evalExpression. intros H.
  destruct (isExpression operand); [|reflexivity].
  rewrite (callReturn_ext g1 g2 _ H). reflexivity.
Qed.

Lemma compileCommand_ext (g1 g2 : Globals) (width height : float) (c : PathCommand) :
  (forall x, In x (commandIdentifiers width height c) -> g1 x = g2 x) ->
  compileCommand g1 width height c = compileCommand g2 width height c.
Proof.
  destruct c as [[cmd x] y]. unfold compileCommand, commandIdentifiers. intros H.
  rewrite (operandValue_ext g1 g2 "width" x), (operandValue_ext g1 g2 "height" y);
    [reflexivity| |]; intros z Hz; apply H, in_or_app; auto.
Qed.

Lemma createSvgPaths_ext (g1 g2 : Globals) (paths : Paths) (width height : float) :
  (forall x, In x (pathsIdentifiers paths width height) -> g1 x = g2 x) ->
  createSvgPaths g1 paths width height = createSvgPaths g2 paths width height.
Proof.
  intros H. unfold createSvgPaths.
  apply mapM_ext. intros p Hp. unfold compilePath. f_equal.
  apply mapM_ext. intros c Hc. apply compileCommand_ext.
  intros x Hx. apply H. unfold pathsIdentifiers.
  apply in_flat_map. exists p. split; [exact Hp|].
  apply in_flat_map. exists c. split; assumption.
Qed.

(** *** Functions that assign nothing leave the scope as it is *)

Lemma assignNothing_incl (g : Globals) (ids ids' : list string) :
  (forall x, In x ids' -> In x ids) -> assignNothing g ids -> assignNothing g ids'.
Proof. intros Hi H x v ws Hx. apply H, Hi, Hx. Qed.

Lemma assignNothing_ext (g1 g2 : Globals) (ids : list string) :
  (forall x, In x ids -> g1 x = g2 x) -> assignNothing g1 ids -> assignNothing g2 ids.
Proof.
  intros He H x v ws Hx Hg. apply (H x v ws Hx). rewrite (He x Hx). exact Hg.
Qed.

Lemma Effects_eval_quiet (g : Globals) (e : expr) :
  assignNothing g (exprIdentifiers e) -> Effects.eval g e = (eval g e, g).
Proof.
  induction e as [v|x|x|op a IH|op l IHl r IHr]; intros H; cbn [Effects.eval eval].
  - reflexivity.
  - destruct (g x); reflexivity.
  - destruct (g x) as [|v| |v ws|] eqn:E; try reflexivity.
    rewrite (H x v ws (or_introl eq_refl) E). reflexivity.
  - rewrite (IH H). destruct (eval g a); reflexivity.
  - cbn [exprIdentifiers] in H.
    rewrite IHl by (apply (assignNothing_incl g _ _ (fun x Hx => in_or_app _ _ x (or_introl Hx)) H)).
    destruct (eval g l); try reflexivity.
    rewrite IHr by (apply (assignNothing_incl g _ _ (fun x Hx => in_or_app _ _ x (or_intror Hx)) H)).
    destruct (eval g r); reflexivity.
Qed.

Lemma Effects_callReturn_quiet (g : Globals) (text : string) :
  assignNothing g (textIdentifiers text) ->
  Effects.callReturn g text = (callReturn g text, g).
Proof.
  unfold Effects.callReturn, callReturn, textIdentifiers.
  destruct (parseReturn text) as [e rest| |]; intros H; [|reflexivity|reflexivity].
  apply Effects_eval_quiet, H.
Qed.

Lemma Effects_operandValue_quiet (g : Globals) (dimension operand : string)
    (width height : float) :
  assignNothing g (operandIdentifiers dimension operand width height) ->
  Effects.operandValue g dimension operand width height
  = (operandValue g dimension operand width height, g).
Proof.
  unfold Effects.operandValue, operandValue, operandIdentifiers,
    Effects.evalExpression, evalExpression.
  destruct (isExpression operand); intros H; [|reflexivity].
  rewrite (Effects_callReturn_quiet g _ H).
  destruct (callReturn g _); reflexivity.
Qed.

Lemma Effects_compileCommand_quiet (g : Globals) (width height : float)
    (c : PathCommand) :
  assignNothing g (commandIdentifiers width height c) ->
  Effects.compileCommand width height g c = (compileCommand g width height c, g).
Proof.
  destruct c as [[cmd x] y].
  unfold Effects.compileCommand, compileCommand, commandIdentifiers. intros H.
  rewrite Effects_operandValue_quiet
    by (apply (assignNothing_incl g _ _ (fun z Hz => in_or_app _ _ z (or_introl Hz)) H)).
  destruct (operandValue g "width" x width height); [|reflexivity].
  rewrite Effects_operandValue_quiet
    by (apply (assignNothing_incl g _ _ (fun z Hz => in_or_app _ _ z (or_intror Hz)) H)).
  destruct (operandValue g "height" y width height); reflexivity.
Qed.

Lemma Effects_mapM_quiet {A B : Type} (f : Globals -> A -> option B * Globals)
    (f0 : A -> option B) (g : Globals) (xs : list A) :
  (forall x, In x xs -> f g x = (f0 x, g)) ->
  Effects.mapM f g xs = (mapM f0 xs, g).
Proof.
  induction xs as [|x r IH]; intros H; cbn [Effects.mapM mapM]; [reflexivity|].
  rewrite (H x (or_introl eq_refl)).
  destruct (f0 x); [|reflexivity].
  rewrite IH by (intros z Hz; apply H; right; exact Hz). reflexivity.
Qed.

Lemma Effects_createSvgPaths_quiet (g : Globals) (paths : Paths)
    (width height : float) :
  assignNothing g (pathsIdentifiers paths width height) ->
  Effects.createSvgPaths g paths width height
  = (createSvgPaths g paths width height, g).
Proof.
  intros H. unfold Effects.createSvgPaths, createSvgPaths.
  apply Effects_mapM_quiet. intros p Hp.
  unfold Effects.compilePath, compilePath.
  rewrite (Effects_mapM_quiet _ (compileCommand g width height)); [reflexivity|].
  intros c Hc. apply Effects_compileCommand_quiet.
  apply (assignNothing_incl g (pathsIdentifiers paths width height)); [|exact H].
  intros x Hx. unfold pathsIdentifiers.
  apply in_flat_map. exists p. split; [exact Hp|].
  apply in_flat_map. exists c. split; assumption.
Qed.

(** C8, as the code has it: operands are evaluated in the global scope of
    the surrounding program, where they read variables and call functions.
    When a compilation stays inside the modelled operand language and the
    functions it names assign nothing, it leaves the scope as it was, and
    its output is determined by the descriptor, the dimensions and the
    bindings of the global identifiers that the operands name: a scope
    that agrees on those identifiers gives the same compiled paths, and is
    left unchanged as well. *)
Theorem compile_depends_on_named_globals :
  forall (g1 g2 after : Globals) (paths : Paths) (width height : float)
         (compiled : list SvgPath),
    Effects.createSvgPaths g1 paths width height = (Some compiled, after) ->
    assignNothing g1 (pathsIdentifiers paths width height) ->
    (forall x, In x (pathsIdentifiers paths width height) -> g1 x = g2 x) ->
    after = g1
    /\ Effects.createSvgPaths g2 paths width height = (Some compiled, g2)
    /\ createSvgPaths g2 paths width height = Some compiled.
Proof.
  intros g1 g2 after paths width height compiled Hrun Hquiet Hagree.
  rewrite (Effects_createSvgPaths_quiet g1 paths width height Hquiet) in Hrun.
  injection Hrun as Hout Hafter.
  assert (H2 : createSvgPaths g2 paths width height = Some compiled).
  { rewrite <- (createSvgPaths_ext g1 g2 paths width height Hagree). exact Hout. }
  split; [symmetry; exact Hafter|]. split; [|exact H2].
  rewrite (Effects_createSvgPaths_quiet g2 paths width height
             (assignNothing_ext g1 g2 _ Hagree Hquiet)).
  rewrite H2. reflexivity.
Qed.

(** C8, witness: a page with [var scale = 2] and
    [function five() { return 5 }], and the same page with another
    variable [offset]: the operands [scale*10] and [five()*2], next to one
    that does not parse, compile alike, and the scope stays as it was. *)
Lemma compile_depends_on_named_globals_witness :
  Effects.createSvgPaths withFiveAndOffset scaledPath (ofZ 200) (ofZ 100)
  = (Some [mkSvgPath None None plainStyle "M 20,10 L 0,50"], withFiveAndOffset)
  /\ createSvgPaths withFiveAndOffset scaledPath (ofZ 200) (ofZ 100)
     = Some [mkSvgPath None None plainStyle "M 20,10 L 0,50"].
Proof.
  apply (compile_depends_on_named_globals withFive withFiveAndOffset withFive
           scaledPath (ofZ 200) (ofZ 100)).
  - vm_compute. reflexivity.
  - intros x v ws Hx.
    vm_compute in Hx. destruct Hx as [<-|[<-|[]]]; vm_compute; intros E; inversion E; reflexivity.
  - intros x Hx.
    vm_compute in Hx. destruct Hx as [<-|[<-|[]]]; reflexivity.
Defined.

(** C8, counterexample: the operand [scale*10] reads the global variable
    [scale]; the same descriptor at the same dimensions compiles to
    [M 20,0] in a page where [scale] is 2 and to [M 30,0] where it is 3.
    The operand [five()*2] calls the function [five] of the page.  With
    [function bump() { scale = 3; return 0 }] in the page, compiling
    [M scale*10 bump()*1] gives [M 20,0] and leaves [scale] at 3, and
    compiling the same descriptor at the same dimensions again gives
    [M 30,0]. *)
Lemma compile_reads_program_state :
  createSvgPaths (withScale (ofZ 2)) (onePath [(M, "scale*10", "0")]) (ofZ 200) (ofZ 100)
  = Some [mkSvgPath None None plainStyle "M 20,0"]
  /\ createSvgPaths (withScale (ofZ 3)) (onePath [(M, "scale*10", "0")]) (ofZ 200) (ofZ 100)
     = Some [mkSvgPath None None plainStyle "M 30,0"]
  /\ createSvgPaths (withScale (ofZ 2)) (onePath [(M, "scale*10", "0")]) (ofZ 200) (ofZ 100)
     <> createSvgPaths (withScale (ofZ 3)) (onePath [(M, "scale*10", "0")]) (ofZ 200) (ofZ 100)
  /\ createSvgPaths withFive (onePath [(M, "five()*2", "0")]) (ofZ 200) (ofZ 100)
     = Some [mkSvgPath None None plainStyle "M 10,0"]
  /\ createSvgPaths (withScale (ofZ 2)) (onePath [(M, "five()*2", "0")]) (ofZ 200) (ofZ 100)
     = Some [mkSvgPath None None plainStyle "M 0,0"]
  /\ fst (Effects.createSvgPaths withBump bumpingPath (ofZ 200) (ofZ 100))
     = Some [mkSvgPath None None plainStyle "M 20,0"]
  /\ snd (Effects.createSvgPaths withBump bumpingPath (ofZ 200) (ofZ 100)) "scale"
     = BoundNumber (ofZ 3)
  /\ withBump "scale" = BoundNumber (ofZ 2)
  /\ fst (Effects.createSvgPaths
            (snd (Effects.createSvgPaths withBump bumpingPath (ofZ 200) (ofZ 100)))
            bumpingPath (ofZ 200) (ofZ 100))
     = Some [mkSvgPath None None plainStyle "M 30,0"].
Proof.
  evaluate.
Qed.

(** ** Failing operands *)








(** ** Percentages *)

(** Each percent sign is rewritten where it stands. *)
Lemma prefix_percent_inside (pre post : string) :
  pre <> EmptyString ->
  prefix "%" (pre ++ "%" ++ post) = prefix "%" pre.
Proof.
  intros H. destruct pre as [|c pre]; [contradiction|].
  change (String c pre ++ "%" ++ post) with (String c (pre ++ "%" ++ post)).
  rewrite !prefix_single. reflexivity.
Qed.

Lemma expressionText_occurrence (dimension pre post : string) :
  expressionText dimension (pre ++ "%" ++ post)
  = expressionText dimension pre ++ ("* " ++ dimension ++ " / 100")
    ++ expressionText dimension post.
Proof.
  unfold expressionText, replaceAll.
  apply (replaceAllFrom_occurrence "%" EmptyString _ prefix_percent_inside (length pre)).
  apply Nat.le_refl.
Qed.

Lemma textIdentifiers_none (g1 g2 : Globals) (text : string) :
  match textIdentifiers text with [] => true | _ => false end = true ->
  callReturn g1 text = callReturn g2 text.
Proof.
  intros H. apply callReturn_ext. intros x Hx.
  destruct (textIdentifiers text); [contradiction|discriminate].
Qed.

Lemma widthShareCut_sound (operand : string) (share width : Z) :
  isExpression operand = true ->
  widthShareCut operand share width = true ->
  forall (g : Globals) (height : float),
    option_map integerText (operandValue g "width" operand (ofZ width) height)
    = Some (decimal (share * width / 100)).
Proof.
  intros He H g height. unfold widthShareCut in H.
  apply andb_true_iff in H. destruct H as [H Hv].
  apply andb_true_iff in H. destruct H as [Hh Hi].
  apply negb_true_iff in Hh.
  unfold operandValue, evalExpression, replaced. rewrite He.
  unfold substituteHeight at 1. rewrite (replaceAll_absent "h" "eight" _ _ Hh).
  rewrite (textIdentifiers_none g plainGlobals _ Hi).
  destruct (callReturn plainGlobals _) as [v| |]; try discriminate.
  cbn [option_map]. apply String.eqb_eq in Hv. rewrite Hv. reflexivity.
Qed.

Lemma heightShareCut_sound (operand : string) (share height : Z) :
  isExpression operand = true ->
  heightShareCut operand share height = true ->
  forall (g : Globals) (width : float),
    option_map integerText (operandValue g "height" operand width (ofZ height))
    = Some (decimal (share * height / 100)).
Proof.
  intros He H g width. unfold heightShareCut in H.
  apply andb_true_iff in H. destruct H as [H Hv].
  apply andb_true_iff in H. destruct H as [Hw Hi].
  apply negb_true_iff in Hw.
  unfold operandValue, evalExpression, replaced. rewrite He.
  unfold substituteWidth. rewrite (replaceAll_absent "w" "idth" _ _ Hw).
  rewrite (textIdentifiers_none g plainGlobals _ Hi).
  destruct (callReturn plainGlobals _) as [v| |]; try discriminate.
  cbn [option_map]. apply String.eqb_eq in Hv. rewrite Hv. reflexivity.
Qed.

Lemma upTo_spec (n : nat) (z : Z) : 0 <= z <= Z.of_nat n -> In z (upTo n).
Proof.
  intros H. unfold upTo. apply in_map_iff. exists (Z.to_nat z). split; [lia|].
  apply in_seq. lia.
Qed.

(** The four operands of [diagonal] at every whole number of pixels up to
    2000. *)
Lemma diagonal_shares_cut :
  (List.forallb (widthShareCut "10%" 10) (upTo 2000)
   && List.forallb (widthShareCut "90%" 90) (upTo 2000)
   && List.forallb (heightShareCut "10%" 10) (upTo 2000)
   && List.forallb (heightShareCut "50%" 50) (upTo 2000))%bool = true.
Proof. vm_compute. reflexivity. Qed.

Lemma compileCommand_texts (g : Globals) (width height : float) (cmd : Command)
    (x y tx ty : string) :
  option_map integerText (operandValue g "width" x width height) = Some tx ->
  option_map integerText (operandValue g "height" y width height) = Some ty ->
  compileCommand g width height (cmd, x, y) = Some (commandTag cmd ++ " " ++ tx ++ "," ++ ty).
Proof.
  unfold compileCommand. intros Hx Hy.
  destruct (operandValue g "width" x width height) as [numX|]; [|discriminate].
  destruct (operandValue g "height" y width height) as [numY|]; [|discriminate].
  cbn [option_map] in Hx, Hy. injection Hx as Hx. injection Hy as Hy.
  rewrite Hx, Hy. reflexivity.
Qed.

(** C5: the sub-path [M 10% 10%, L 90% 50%] compiled at 200 by 100 is
    exactly [M 20,10] followed by [L 180,50], whatever the name, the
    visibility, the style and the global scope.  Every percent sign of an
    x operand is rewritten with [width], every one of a y operand with
    [height].  The values are cut to integers: at every whole number of
    pixels up to 2000 by 2000 the coordinates are 10 and 90 percent of the
    width and 10 and 50 percent of the height without their fractions, as
    at 205 by 105, where 20.5, 10.5, 184.5 and 52.5 become 20, 10, 184 and
    52. *)
Theorem percent_path_scaled_and_cut :
  forall (g : Globals) (nm : option string) (sh : option bool) (st : Style),
    createSvgPaths g [mkPath nm sh st [(M, "10%", "10%"); (L, "90%", "50%")]]
      (ofZ 200) (ofZ 100)
    = Some [mkSvgPath nm sh st "M 20,10 L 180,50"]
    /\ (forall pre post : string,
          expressionText "width" (pre ++ "%" ++ post)
          = expressionText "width" pre ++ "* width / 100" ++ expressionText "width" post
          /\ expressionText "height" (pre ++ "%" ++ post)
             = expressionText "height" pre ++ "* height / 100"
               ++ expressionText "height" post)
    /\ replaced (expressionText "width" "90%") (ofZ 200) (ofZ 100) = "90* 200 / 100"
    /\ replaced (expressionText "height" "50%") (ofZ 200) (ofZ 100) = "50* 100 / 100"
    /\ (forall width height : Z,
          0 <= width <= 2000 -> 0 <= height <= 2000 ->
          createSvgPaths g [mkPath nm sh st [(M, "10%", "10%"); (L, "90%", "50%")]]
            (ofZ width) (ofZ height)
          = Some [mkSvgPath nm sh st (diagonalCut width height)])
    /\ createSvgPaths g [mkPath nm sh st [(M, "10%", "10%"); (L, "90%", "50%")]]
         (ofZ 205) (ofZ 105)
       = Some [mkSvgPath nm sh st "M 20,10 L 184,52"]
    /\ operandValue g "width" "10%" (ofZ 205) (ofZ 105) = Some (ofDecimal 205 (-1))
    /\ compileCommand g (ofZ 205) (ofZ 105) (M, "0-10%", "0-50%") = Some "M -20,-52".
Proof.
  intros g nm sh st.
  assert (Hcut : forall width height : Z,
            0 <= width <= 2000 -> 0 <= height <= 2000 ->
            createSvgPaths g [mkPath nm sh st [(M, "10%", "10%"); (L, "90%", "50%")]]
              (ofZ width) (ofZ height)
            = Some [mkSvgPath nm sh st (diagonalCut width height)]).
  { intros width height Hw Hh.
    pose proof diagonal_shares_cut as H.
    apply andb_true_iff in H. destruct H as [H H4].
    apply andb_true_iff in H. destruct H as [H H3].
    apply andb_true_iff in H. destruct H as [H1 H2].
    rewrite forallb_forall in H1, H2, H3, H4.
    assert (Iw : In width (upTo 2000)) by (apply upTo_spec; lia).
    assert (Ih : In height (upTo 2000)) by (apply upTo_spec; lia).
    unfold createSvgPaths, compilePath. cbn [mapM path name show style].
    rewrite (compileCommand_texts g (ofZ width) (ofZ height) M "10%" "10%"
               (decimal (10 * width / 100)) (decimal (10 * height / 100))
               (widthShareCut_sound "10%" 10 width eq_refl (H1 width Iw) g (ofZ height))
               (heightShareCut_sound "10%" 10 height eq_refl (H3 height Ih) g (ofZ width))).
    rewrite (compileCommand_texts g (ofZ width) (ofZ height) L "90%" "50%"
               (decimal (90 * width / 100)) (decimal (50 * height / 100))
               (widthShareCut_sound "90%" 90 width eq_refl (H2 width Iw) g (ofZ height))
               (heightShareCut_sound "50%" 50 height eq_refl (H4 height Ih) g (ofZ width))).
    cbn [option_map join commandTag]. unfold diagonalCut.
    rewrite !string_append_assoc. reflexivity. }
  split; [vm_compute; reflexivity|].
  split; [intros pre post; split; apply expressionText_occurrence|].
  split; [vm_compute; reflexivity|].
  split; [vm_compute; reflexivity|].
  split; [exact Hcut|].
  evaluate.
Qed.

(** ** The sink and its cache *)

Section Rendering.

Variable g : Globals.

Lemma attributeDiffers_false (prev : option string) (text : string) :
  attributeDiffers prev text = false <-> prev = Some text.
Proof.
  unfold attributeDiffers. destruct prev as [p|].
  - rewrite negb_false_iff, String.eqb_eq. split; [intros ->; reflexivity|].
    intros H. inversion H. reflexivity.
  - split; discriminate.
Qed.

(** The cache test compares both components, as texts. *)
Lemma dimensionsChanged_false (e : SvgElement) (width height : float) :
  dimensionsChanged e width height = false
  <-> dataWidth e = Some (toString width) /\ dataHeight e = Some (toString height).
Proof.
  unfold dimensionsChanged. rewrite orb_false_iff, !attributeDiffers_false. reflexivity.
Qed.

Lemma dimensionsChanged_true (e : SvgElement) (width height : float) :
  dimensionsChanged e width height = true
  <-> ~ (dataWidth e = Some (toString width) /\ dataHeight e = Some (toString height)).
Proof.
  rewrite <- dimensionsChanged_false.
  destruct (dimensionsChanged e width height); split; intros H; congruence.
Qed.

Lemma createSvgElement_skip (e : SvgElement) (paths : Paths)
    (width height : float) (blur vb : bool) :
  dimensionsChanged e width height = false ->
  createSvgElement g e paths width height blur vb = Some (e, None).
Proof.
  intros H. unfold createSvgElement. rewrite H. reflexivity.
Qed.

Lemma createSvgElement_commit (e : SvgElement) (paths : Paths)
    (width height : float) (blur vb : bool) (compiled : list SvgPath) :
  dimensionsChanged e width height = true ->
  createSvgPaths g paths width height = Some compiled ->
  exists e1,
    createSvgElement g e paths width height blur vb = Some (e1, Some compiled)
    /\ dataWidth e1 = Some (toString width)
    /\ dataHeight e1 = Some (toString height)
    /\ pathChildren e1 = List.map toPathElement compiled
    /\ dimensionsChanged e1 width height = false.
Proof.
  intros H Hc. unfold createSvgElement. rewrite H, Hc.
  eexists. split; [reflexivity|]. cbn [dataWidth dataHeight pathChildren].
  repeat split. apply dimensionsChanged_false. split; reflexivity.
Qed.

(** A call either skips and leaves the element alone, or hands compiled
    paths to the DOM. *)
Lemma createSvgElement_cases (e e1 : SvgElement) (paths : Paths)
    (width height : float) (blur vb : bool) (out : option (list SvgPath)) :
  createSvgElement g e paths width height blur vb = Some (e1, out) ->
  (out = None /\ e1 = e /\ dimensionsChanged e width height = false)
  \/ (exists compiled, out = Some compiled
        /\ createSvgPaths g paths width height = Some compiled
        /\ dimensionsChanged e width height = true).
Proof.
  unfold createSvgElement.
  destruct (dimensionsChanged e width height).
  - destruct (createSvgPaths g paths width height) as [compiled|]; [|discriminate].
    intros H. inversion H; subst. right. exists compiled. repeat split.
  - intros H. inversion H; subst. left. repeat split.
Qed.

(** ** The closure [render] *)

Lemma render_skip (sid : nat) (w : World) :
  dimensionsChanged (el w) (fst (elBox w)) (snd (elBox w)) = false ->
  render g sid w = Some w.
Proof.
  intros H. unfold render.
  destruct (nth_error (sessions w) sid) as [s|]; [|reflexivity].
  destruct (elBox w) as [width height] eqn:Eb. cbn [fst snd] in H.
  rewrite (createSvgElement_skip (el w) (sPaths s) width height _ _ H).
  destruct w; cbn in *. subst. reflexivity.
Qed.

Lemma render_commit (sid : nat) (w : World) (s : Session)
    (compiled : list SvgPath) :
  nth_error (sessions w) sid = Some s ->
  dimensionsChanged (el w) (fst (elBox w)) (snd (elBox w)) = true ->
  createSvgPaths g (sPaths s) (fst (elBox w)) (snd (elBox w)) = Some compiled ->
  exists w1,
    render g sid w = Some w1
    /\ sinkLog w1 = (sinkLog w ++ [compiled])%list
    /\ dataWidth (el w1) = Some (toString (fst (elBox w)))
    /\ dataHeight (el w1) = Some (toString (snd (elBox w)))
    /\ pathChildren (el w1) = List.map toPathElement compiled
    /\ elBox w1 = elBox w /\ sessions w1 = sessions w /\ loops w1 = loops w
    /\ elRender w1 = elRender w
    /\ render g sid w1 = Some w1.
Proof.
  intros Hs H Hc. unfold render at 1. rewrite Hs.
  destruct (elBox w) as [width height] eqn:Eb. cbn [fst snd] in *.
  destruct (createSvgElement_commit (el w) (sPaths s) width height
              (sBackdropBlur s) (sViewBox s) compiled H Hc)
    as (e1 & He & Hw & Hh & Hp & Hd).
  rewrite He. eexists. split; [reflexivity|].
  cbn [withEl sinkLog el elBox sessions loops elRender].
  repeat split; try assumption.
  apply render_skip. cbn [withEl el elBox]. rewrite Eb. exact Hd.
Qed.

(** What [render] leaves alone, and how the log grows. *)
Lemma render_frame (sid : nat) (w w1 : World) :
  render g sid w = Some w1 -> sameSchedule w w1 /\ cacheFollowsSink w w1.
Proof.
  unfold render, sameSchedule, cacheFollowsSink, sinkCalls.
  destruct (nth_error (sessions w) sid) as [s|].
  - destruct (elBox w) as [width height] eqn:Eb.
    destruct (createSvgElement g (el w) (sPaths s) width height
                (sBackdropBlur s) (sViewBox s)) as [[e out]|] eqn:Ec; [|discriminate].
    intros H. inversion H; subst. cbn [withEl elBox ancestors sessions loops elRender sinkLog el].
    repeat split; try assumption.
    + destruct out; [rewrite length_app; simpl; lia|lia].
    + destruct (createSvgElement_cases _ _ _ _ _ _ _ _ Ec) as [(-> & -> & _)|(c & -> & _)].
      * reflexivity.
      * rewrite length_app. simpl. lia.
  - intros H. inversion H; subst. repeat split; lia.
Qed.

Lemma cacheFollowsSink_refl (w : World) : cacheFollowsSink w w.
Proof. split; [apply Nat.le_refl|reflexivity]. Qed.

Lemma cacheFollowsSink_same (w w1 : World) :
  el w1 = el w -> sinkLog w1 = sinkLog w -> cacheFollowsSink w w1.
Proof.
  unfold cacheFollowsSink, sinkCalls. intros He Hl. rewrite Hl. split; [lia|].
  intros _. exact He.
Qed.

Lemma cacheFollowsSink_trans (w w1 w2 : World) :
  cacheFollowsSink w w1 -> cacheFollowsSink w1 w2 -> cacheFollowsSink w w2.
Proof.
  unfold cacheFollowsSink. intros [H1 E1] [H2 E2]. split; [lia|].
  intros H. rewrite E2, E1; [reflexivity|lia|lia].
Qed.

Lemma sameSchedule_refl (w : World) : sameSchedule w w.
Proof. repeat split. Qed.

Lemma sameSchedule_trans (w w1 w2 : World) :
  sameSchedule w w1 -> sameSchedule w1 w2 -> sameSchedule w w2.
Proof.
  unfold sameSchedule. intros (A1 & B1 & C1 & D1 & E1) (A2 & B2 & C2 & D2 & E2).
  repeat split; congruence.
Qed.

Create HintDb schedule.
#[local] Hint Resolve cacheFollowsSink_refl sameSchedule_refl : schedule.

Lemma repeatRender_frame (sid n : nat) (w w1 : World) :
  repeatRender g sid n w = Some w1 -> sameSchedule w w1 /\ cacheFollowsSink w w1.
Proof.
  revert w. induction n as [|n IH]; intros w H; simpl in H.
  - inversion H; subst. auto with schedule.
  - destruct (render g sid w) as [w0|] eqn:Er; [|discriminate]. simpl in H.
    destruct (render_frame sid w w0 Er) as [S0 C0].
    destruct (IH w0 H) as [S1 C1]. split.
    + exact (sameSchedule_trans _ _ _ S0 S1).
    + exact (cacheFollowsSink_trans _ _ _ C0 C1).
Qed.

Lemma runCallbacks_frame (ls : list Loop) (w w1 : World) :
  runCallbacks g ls w = Some w1 -> sameSchedule w w1 /\ cacheFollowsSink w w1.
Proof.
  revert w. induction ls as [|l ls IH]; intros w H; simpl in H.
  - inversion H; subst. auto with schedule.
  - destruct (frameCallback g l w) as [w0|] eqn:Ef; [|discriminate]. simpl in H.
    assert (F0 : sameSchedule w w0 /\ cacheFollowsSink w w0).
    { unfold frameCallback in Ef. destruct (scheduled l && running l)%bool.
      - exact (render_frame _ w w0 Ef).
      - inversion Ef; subst. auto with schedule. }
    destruct F0 as [S0 C0]. destruct (IH w0 H) as [S1 C1]. split.
    + exact (sameSchedule_trans _ _ _ S0 S1).
    + exact (cacheFollowsSink_trans _ _ _ C0 C1).
Qed.

Lemma startHandler_frame (k : Kind) (sid : nat) (w w1 : World) :
  startHandler g k sid w = Some w1 ->
  cacheFollowsSink w w1 /\ sessions w1 = sessions w.
Proof.
  unfold startHandler. destruct (render g sid w) as [w0|] eqn:Er; [|discriminate].
  simpl. intros H. inversion H; subst.
  destruct (render_frame sid w w0 Er) as [(_ & _ & S0 & _) C0].
  split; [exact C0|exact S0].
Qed.

Lemma dispatchStart_frame (k : Kind) (n : Node) (ss : list Session)
    (sid : nat) (w w1 : World) :
  dispatchStart g k n sid ss w = Some w1 ->
  cacheFollowsSink w w1 /\ sessions w1 = sessions w.
Proof.
  revert sid w. induction ss as [|s ss IH]; intros sid w H; simpl in H.
  - inversion H; subst. split; [apply cacheFollowsSink_refl|reflexivity].
  - destruct (Node_eqb (parentElement s) n).
    + destruct (startHandler g k sid w) as [w0|] eqn:Es; [|discriminate]. simpl in H.
      destruct (startHandler_frame k sid w w0 Es) as [C0 S0].
      destruct (IH (S sid) w0 H) as [C1 S1]. split.
      * exact (cacheFollowsSink_trans _ _ _ C0 C1).
      * congruence.
    + simpl in H. exact (IH (S sid) w H).
Qed.

(** The cache changes only when the sink is called, whatever happens. *)
Lemma step_cacheFollowsSink (w w1 : World) (e : Event) :
  step g w e = Some w1 -> cacheFollowsSink w w1.
Proof.
  destruct e as [paths blur vb|h| |n b|sid entries|k n|k n| ]; simpl; intros H.
  - inversion H; subst. apply cacheFollowsSink_same; reflexivity.
  - inversion H; subst. apply cacheFollowsSink_same; reflexivity.
  - destruct (elRender w) as [sid|].
    + exact (proj2 (render_frame sid w w1 H)).
    + inversion H; subst. apply cacheFollowsSink_refl.
  - inversion H; subst. destruct n; apply cacheFollowsSink_same; reflexivity.
  - destruct (nth_error (sessions w) sid) as [s|].
    + destruct (observing s).
      * exact (proj2 (repeatRender_frame sid entries w w1 H)).
      * inversion H; subst. apply cacheFollowsSink_refl.
    + inversion H; subst. apply cacheFollowsSink_refl.
  - exact (proj1 (dispatchStart_frame k n _ _ w w1 H)).
  - inversion H; subst. apply cacheFollowsSink_same; reflexivity.
  - destruct (runCallbacks g (loops w) w) as [w0|] eqn:Er; [|discriminate].
    simpl in H. inversion H; subst.
    apply (cacheFollowsSink_trans _ w0).
    + exact (proj2 (runCallbacks_frame _ w w0 Er)).
    + apply cacheFollowsSink_same; reflexivity.
Qed.

End Rendering.

(** ** The scheduler *)

(** C4: an attempt to render is skipped if and only if the sampled width
    and height both equal the cached ones (the texts of the numbers are
    compared, not references).  When they do not, the descriptor is
    compiled anew and all paths are replaced, also when one axis alone
    differs; the cache then holds the sampled dimensions and a second
    attempt at the same dimensions is skipped, so that of two consecutive
    attempts with identical dimensions exactly the first one reaches the
    sink. *)
Theorem render_skipped_iff_dimensions_cached :
  forall (g : Globals) (e : SvgElement) (paths : Paths) (width height : float)
         (blur vb : bool),
    (createSvgElement g e paths width height blur vb = Some (e, None)
     <-> dataWidth e = Some (toString width) /\ dataHeight e = Some (toString height))
    /\ (forall compiled,
          createSvgPaths g paths width height = Some compiled ->
          (dataWidth e <> Some (toString width) \/ dataHeight e <> Some (toString height)) ->
          exists e1,
            createSvgElement g e paths width height blur vb = Some (e1, Some compiled)
            /\ dataWidth e1 = Some (toString width)
            /\ dataHeight e1 = Some (toString height)
            /\ pathChildren e1 = List.map toPathElement compiled
            /\ createSvgElement g e1 paths width height blur vb = Some (e1, None))
    /\ (forall (w : World) (sid : nat) (s : Session) compiled,
          nth_error (sessions w) sid = Some s ->
          createSvgPaths g (sPaths s) (fst (elBox w)) (snd (elBox w)) = Some compiled ->
          (dataWidth (el w) <> Some (toString (fst (elBox w)))
           \/ dataHeight (el w) <> Some (toString (snd (elBox w)))) ->
          exists w1,
            render g sid w = Some w1 /\ render g sid w1 = Some w1
            /\ sinkLog w1 = (sinkLog w ++ [compiled])%list).
Proof.
  intros g e paths width height blur vb. split; [|split].
  - split.
    + intros H. apply dimensionsChanged_false.
      destruct (createSvgElement_cases _ _ _ _ _ _ _ _ _ H) as [(_ & _ & Hd)|(c & Hc & _)];
        [exact Hd|discriminate].
    + intros H. apply createSvgElement_skip, dimensionsChanged_false, H.
  - intros compiled Hc Hne.
    assert (Hd : dimensionsChanged e width height = true).
    { apply dimensionsChanged_true. intros [Hw Hh]. destruct Hne; contradiction. }
    destruct (createSvgElement_commit g e paths width height blur vb compiled Hd Hc)
      as (e1 & He & Hw & Hh & Hp & Hd1).
    exists e1. repeat split; try assumption.
    apply createSvgElement_skip. exact Hd1.
  - intros w sid s compiled Hs Hc Hne.
    assert (Hd : dimensionsChanged (el w) (fst (elBox w)) (snd (elBox w)) = true).
    { apply dimensionsChanged_true. intros [Hw Hh]. destruct Hne; contradiction. }
    destruct (render_commit g sid w s compiled Hs Hd Hc) as (w1 & Hr & Hl & _ & _ & _ & _ & _ & _ & _ & Hr1).
    exists w1. repeat split; assumption.
Qed.

(** C4, witness: a target cached at 200 by 100 skips at 200 by 100 and
    renders at 300 by 100, where only the width differs, after which it
    skips at 300 by 100. *)
Lemma render_skipped_iff_dimensions_cached_witness :
  createSvgElement plainGlobals cachedAt200x100 diagonal (ofZ 200) (ofZ 100) false false
  = Some (cachedAt200x100, None)
  /\ exists e1,
       createSvgElement plainGlobals cachedAt200x100 diagonal (ofZ 300) (ofZ 100)
         false false
       = Some (e1, Some diagonalAt300x100)
       /\ createSvgElement plainGlobals e1 diagonal (ofZ 300) (ofZ 100) false false
          = Some (e1, None).
Proof.
  pose proof (render_skipped_iff_dimensions_cached plainGlobals cachedAt200x100 diagonal
                (ofZ 200) (ofZ 100) false false) as (Hskip & _ & _).
  pose proof (render_skipped_iff_dimensions_cached plainGlobals cachedAt200x100 diagonal
                (ofZ 300) (ofZ 100) false false) as (_ & Hcommit & _).
  split.
  - apply Hskip. split; vm_compute; reflexivity.
  - destruct (Hcommit diagonalAt300x100)
      as (e1 & H1 & _ & _ & _ & H2).
    + vm_compute. reflexivity.
    + left. vm_compute. discriminate.
    + exists e1. split; assumption.
Defined.

(** C2, as the code has it: the handle holds [destroy] alone; [render] is
    installed on the target element by [setupSvgRenderer], and a call of it
    is an ordinary attempt to render: with the current dimensions in the
    cache it does nothing, otherwise it commits. *)
Theorem element_render_respects_cache :
  forall (g : Globals) (w : World) (sid : nat) (s : Session),
    elRender w = Some sid ->
    nth_error (sessions w) sid = Some s ->
    (dataWidth (el w) = Some (toString (fst (elBox w)))
     /\ dataHeight (el w) = Some (toString (snd (elBox w))) ->
     step g w CallRender = Some w)
    /\ (forall compiled,
          createSvgPaths g (sPaths s) (fst (elBox w)) (snd (elBox w)) = Some compiled ->
          (dataWidth (el w) <> Some (toString (fst (elBox w)))
           \/ dataHeight (el w) <> Some (toString (snd (elBox w)))) ->
          exists w1, step g w CallRender = Some w1
                     /\ sinkLog w1 = (sinkLog w ++ [compiled])%list)
    /\ (forall paths blur vb,
          elRender (fst (setupSvgRenderer paths blur vb w))
          = Some (handleSession (snd (setupSvgRenderer paths blur vb w)))).
Proof.
  intros g w sid s Hr Hs. cbn [step]. rewrite Hr. split; [|split].
  - intros H. apply render_skip, dimensionsChanged_false, H.
  - intros compiled Hc Hne.
    assert (Hd : dimensionsChanged (el w) (fst (elBox w)) (snd (elBox w)) = true).
    { apply dimensionsChanged_true. intros [Hw Hh]. destruct Hne; contradiction. }
    destruct (render_commit g sid w s compiled Hs Hd Hc) as (w1 & Hr1 & Hl & _).
    exists w1. split; assumption.
  - intros paths blur vb. reflexivity.
Qed.

(** C2, witness: on the page just set up, nothing is cached and
    [el.render()] commits the compiled diagonal. *)
Lemma element_render_respects_cache_witness :
  exists w1, step plainGlobals pageSetUp CallRender = Some w1
             /\ sinkLog w1 = [diagonalAt200x100].
Proof.
  destruct (element_render_respects_cache plainGlobals pageSetUp 0 diagonalSession
              eq_refl eq_refl) as (_ & Hcommit & _).
  destruct (Hcommit diagonalAt200x100) as (w1 & Hs & Hl).
  - vm_compute. reflexivity.
  - left. vm_compute. discriminate.
  - exists w1. split; [exact Hs|exact Hl].
Defined.

(** C2, counterexample: after a first [el.render()] at 200 by 100, a
    second one at the same dimensions changes nothing: the compiler and
    the sink are not invoked. *)
Lemma second_render_call_is_skipped :
  exists w1,
    run plainGlobals page200x100 [Setup diagonal false false; CallRender] = Some w1
    /\ sinkLog w1 = [diagonalAt200x100]
    /\ dataWidth (el w1) = Some (toString (fst (elBox w1)))
    /\ dataHeight (el w1) = Some (toString (snd (elBox w1)))
    /\ step plainGlobals w1 CallRender = Some w1.
Proof.
  eexists. split; [vm_compute; reflexivity|].
  evaluate.
Qed.

Lemma nth_error_snoc {A : Type} (xs : list A) (x : A) :
  nth_error (xs ++ [x]) (List.length xs) = Some x.
Proof.
  induction xs as [|y xs IH]; simpl; [reflexivity|exact IH].
Qed.

(** C10, as the code has it: the cache is the pair of attributes
    [data-width] and [data-height] of the target element.  Setting up a
    session and tearing one down leave it as it is; no event changes it
    without a call of the sink; the first attempt to render of a new
    session commits on an element that lacks an attribute, and is skipped
    on an element whose attributes hold the current dimensions. *)
Theorem cache_is_kept_in_element_attributes :
  forall (g : Globals) (w : World),
    (forall paths blur vb, el (fst (setupSvgRenderer paths blur vb w)) = el w)
    /\ (forall h, el (destroy h w) = el w)
    /\ (forall e w1, step g w e = Some w1 -> cacheFollowsSink w w1)
    /\ (forall paths blur vb compiled,
          dataWidth (el w) = None \/ dataHeight (el w) = None ->
          createSvgPaths g paths (fst (elBox w)) (snd (elBox w)) = Some compiled ->
          exists w1,
            step g (fst (setupSvgRenderer paths blur vb w))
              (ResizeNotification (List.length (sessions w)) 1) = Some w1
            /\ sinkLog w1 = (sinkLog w ++ [compiled])%list)
    /\ (forall paths blur vb,
          dataWidth (el w) = Some (toString (fst (elBox w))) ->
          dataHeight (el w) = Some (toString (snd (elBox w))) ->
          step g (fst (setupSvgRenderer paths blur vb w))
            (ResizeNotification (List.length (sessions w)) 1)
          = Some (fst (setupSvgRenderer paths blur vb w))).
Proof.
  intros g w. repeat split.
  - destruct (step_cacheFollowsSink g w w1 e H) as [Hle _]. exact Hle.
  - destruct (step_cacheFollowsSink g w w1 e H) as [_ He]. exact He.
  - intros paths blur vb compiled Hnone Hc.
    cbn [step setupSvgRenderer fst sessions]. rewrite nth_error_snoc. cbn [observing repeatRender].
    set (w0 := mkWorld _ _ _ _ _ _ _).
    assert (Hd : dimensionsChanged (el w0) (fst (elBox w0)) (snd (elBox w0)) = true).
    { apply dimensionsChanged_true. cbn [w0 el elBox]. intros [Hw Hh].
      destruct Hnone as [Hn|Hn]; congruence. }
    destruct (render_commit g (List.length (sessions w)) w0 _ compiled
                (nth_error_snoc (sessions w) _) Hd Hc) as (w1 & Hr & Hl & _).
    exists w1. rewrite Hr. split; [reflexivity|exact Hl].
  - intros paths blur vb Hw Hh.
    cbn [step setupSvgRenderer fst sessions]. rewrite nth_error_snoc. cbn [observing repeatRender].
    rewrite render_skip; [reflexivity|].
    apply dimensionsChanged_false. split; assumption.
Qed.

(** C10, witness: a second session on a page rendered at 200 by 100
    skips its first attempt; a first session on a fresh page commits. *)
Lemma cache_is_kept_in_element_attributes_witness :
  step plainGlobals (fst (setupSvgRenderer diagonal false false pagePolling))
    (ResizeNotification 1 1)
  = Some (fst (setupSvgRenderer diagonal false false pagePolling))
  /\ exists w1, step plainGlobals pageSetUp (ResizeNotification 0 1) = Some w1
                /\ sinkLog w1 = [diagonalAt200x100].
Proof.
  split.
  - destruct (cache_is_kept_in_element_attributes plainGlobals pagePolling)
      as (_ & _ & _ & _ & Hskip).
    apply (Hskip diagonal false false); vm_compute; reflexivity.
  - destruct (cache_is_kept_in_element_attributes plainGlobals page200x100)
      as (_ & _ & _ & Hfirst & _).
    destruct (Hfirst diagonal false false diagonalAt200x100) as (w1 & Hs & Hl).
    + left. reflexivity.
    + vm_compute. reflexivity.
    + exists w1. split; [exact Hs|exact Hl].
Defined.

(** C10, counterexample: a session is set up, renders at 200 by 100 and
    is torn down; the attributes still hold 200 and 100, and the first
    attempt to render of the next session on the same element is skipped. *)
Lemma cache_survives_teardown :
  exists w1 w2,
    run plainGlobals page200x100
      [Setup diagonal false false; ResizeNotification 0 1; Destroy (mkHandle 0)]
    = Some w1
    /\ dataWidth (el w1) = Some "200" /\ dataHeight (el w1) = Some "100"
    /\ sinkCalls w1 = 1%nat
    /\ run plainGlobals w1 [Setup diagonal false false; ResizeNotification 1 1] = Some w2
    /\ sinkCalls w2 = 1%nat.
Proof.
  eexists. eexists. split; [vm_compute; reflexivity|].
  evaluate.
Qed.

(** ** Polling loops *)

Lemma parentSettled_true (w : World) (s : Session) :
  parentSettled w s = true
  <-> dataWidth (el w) = Some (toString (fst (boxOf w (parentElement s))))
      /\ dataHeight (el w) = Some (toString (snd (boxOf w (parentElement s)))).
Proof.
  unfold parentSettled. destruct (boxOf w (parentElement s)) as [pw ph]. cbn [fst snd].
  rewrite andb_true_iff, !negb_true_iff, !attributeDiffers_false. reflexivity.
Qed.

(** An end listener that has fired is gone: later end events pass by. *)
Lemma endHandler_removed (w : World) (k : Kind) (n : Node) (l : Loop) :
  endListener l = false -> endHandler w k n l = l.
Proof.
  intros H. unfold endHandler. rewrite H.
  destruct (nth_error (sessions w) (loopSession l)); reflexivity.
Qed.

Lemma Kind_eqb_refl (k : Kind) : Kind_eqb k k = true.
Proof. destruct k; reflexivity. Qed.

Lemma Node_eqb_refl (n : Node) : Node_eqb n n = true.
Proof. destruct n; simpl; [reflexivity|apply Nat.eqb_refl]. Qed.

Lemma Kind_eqb_neq (a b : Kind) : a <> b -> Kind_eqb a b = false.
Proof. destruct a, b; intros H; try reflexivity; exfalso; apply H; reflexivity. Qed.

Lemma Node_eqb_neq (a b : Node) : a <> b -> Node_eqb a b = false.
Proof.
  destruct a as [|i], b as [|j]; intros H; simpl; try reflexivity.
  - exfalso. apply H. reflexivity.
  - apply Nat.eqb_neq. intros E. apply H. rewrite E. reflexivity.
Qed.

(** An end event of another kind, or at another node, passes a listening
    loop by. *)
Lemma endHandler_other (w : World) (k : Kind) (n : Node) (l : Loop) (s : Session) :
  nth_error (sessions w) (loopSession l) = Some s ->
  k <> loopKind l \/ n <> parentElement s ->
  endHandler w k n l = l.
Proof.
  intros Hs H. unfold endHandler. rewrite Hs.
  destruct H as [H|H].
  - rewrite (Kind_eqb_neq (loopKind l) k) by (intros E; apply H; symmetry; exact E).
    rewrite andb_false_r. reflexivity.
  - rewrite (Node_eqb_neq (parentElement s) n) by (intros E; apply H; symmetry; exact E).
    rewrite andb_false_r. reflexivity.
Qed.

(** C9, as the code has it: the end listener of a polling loop is a
    one-shot listener for the end events of the loop's kind delivered to
    the watched ancestor, whichever transition or animation they close.
    The loop [l] is running with its listener in place.  An end event of
    the other kind, or delivered to another node, leaves it as it is.  The
    first end event of its kind on the watched ancestor sets [running] to
    the negation of the comparison of the ancestor's measured width and
    height with the cached dimensions of the target, and removes the
    listener.  At the next
    animation frame a settled loop returns without rendering and is not
    scheduled again, while a loop that was not settled renders, stays
    scheduled, and is not stopped by any later end event. *)
Theorem end_listener_decides_once :
  forall (g : Globals) (w : World) (k : Kind) (n : Node) (i : nat) (l : Loop)
         (s : Session),
    nth_error (loops w) i = Some l ->
    nth_error (sessions w) (loopSession l) = Some s ->
    loopKind l = k -> parentElement s = n ->
    running l = true -> scheduled l = true -> endListener l = true ->
    let settled := parentSettled w s in
    let l1 := mkLoop (loopSession l) k (negb settled) true false in
    (settled = true
     <-> dataWidth (el w) = Some (toString (fst (boxOf w n)))
         /\ dataHeight (el w) = Some (toString (snd (boxOf w n))))
    /\ (forall k2 n2,
          k2 <> k \/ n2 <> n ->
          exists w1, step g w (EndEvent k2 n2) = Some w1
                     /\ nth_error (loops w1) i = Some l
                     /\ el w1 = el w /\ sinkLog w1 = sinkLog w)
    /\ (exists w1,
          step g w (EndEvent k n) = Some w1
          /\ nth_error (loops w1) i = Some l1
          /\ el w1 = el w /\ sinkLog w1 = sinkLog w)
    /\ (forall w2,
          frameCallback g l1 w2
          = if settled then Some w2 else render g (loopSession l) w2)
    /\ (forall w2 w3,
          nth_error (loops w2) i = Some l1 ->
          step g w2 AnimationFrame = Some w3 ->
          nth_error (loops w3) i
          = Some (mkLoop (loopSession l) k (negb settled) (negb settled) false))
    /\ (forall w2 k2 n2,
          nth_error (loops w2) i = Some l1 ->
          exists w3, step g w2 (EndEvent k2 n2) = Some w3
                     /\ nth_error (loops w3) i = Some l1).
Proof.
  intros g w k n i l s Hl Hs Hk Hn Hrun Hsch Hend settled l1.
  split; [|split; [|split; [|split; [|split]]]].
  - subst n. apply parentSettled_true.
  - intros k2 n2 Hother. eexists. cbn [step]. split; [reflexivity|].
    cbn [withLoops loops el sinkLog]. repeat split.
    rewrite nth_error_map, Hl. cbn [option_map]. f_equal.
    apply (endHandler_other w k2 n2 l s Hs). rewrite Hk, Hn. exact Hother.
  - eexists. cbn [step]. split; [reflexivity|].
    cbn [withLoops loops el sinkLog]. repeat split.
    rewrite nth_error_map, Hl. cbn [option_map]. f_equal.
    unfold endHandler. rewrite Hs, Hend, Hk, Hn, Kind_eqb_refl, Node_eqb_refl.
    cbn [andb]. unfold l1, settled. rewrite Hsch, Hrun.
    destruct (parentSettled w s); reflexivity.
  - intros w2. unfold frameCallback, l1. cbn [scheduled running loopSession andb].
    destruct settled; reflexivity.
  - intros w2 w3 Hl2. cbn [step].
    destruct (runCallbacks g (loops w2) w2) as [w0|] eqn:Er; [|discriminate].
    cbn [andThen]. intros H. inversion H; subst w3. cbn [withLoops loops].
    destruct (runCallbacks_frame g _ w2 w0 Er) as [(_ & _ & _ & Hloops & _) _].
    rewrite Hloops, nth_error_map, Hl2. cbn [option_map]. f_equal.
    unfold afterFrame, l1. cbn [scheduled running loopSession loopKind endListener andb].
    destruct settled; reflexivity.
  - intros w2 k2 n2 Hl2. eexists. cbn [step]. split; [reflexivity|].
    cbn [withLoops loops]. rewrite nth_error_map, Hl2. cbn [option_map]. f_equal.
    apply endHandler_removed. reflexivity.
Qed.

(** C9, witness: the loop of [pagePolling] ignores the end of an
    animation, and stops at the end of a transition that leaves the target
    at its cached 200 by 100. *)
Lemma end_listener_decides_once_witness :
  (exists w1,
     step plainGlobals pagePolling (EndEvent Animation Target) = Some w1
     /\ nth_error (loops w1) 0 = Some (mkLoop 0 Transition true true true))
  /\ (exists w1,
        step plainGlobals pagePolling (EndEvent Transition Target) = Some w1
        /\ nth_error (loops w1) 0 = Some (mkLoop 0 Transition false true false)).
Proof.
  destruct (end_listener_decides_once plainGlobals pagePolling
              Transition Target 0 (mkLoop 0 Transition true true true) diagonalSession
              eq_refl eq_refl eq_refl eq_refl eq_refl eq_refl eq_refl)
    as (_ & Hother & (w1 & Hs & Hl & _) & _).
  split.
  - destruct (Hother Animation Target) as (w0 & Hs0 & Hl0 & _).
    + left. discriminate.
    + exists w0. split; [exact Hs0|exact Hl0].
  - exists w1. split; [exact Hs|].
    etransitivity; [exact Hl|]. vm_compute. reflexivity.
Defined.

(** C9, counterexample: two transitions of the target overlap.  Each start
    event starts a loop with its own end listener.  The first transition
    ends while the target, grown to 300 by 100, differs from the cached
    200 by 100: both listeners fire, neither stops its loop, both are
    removed.  A frame later the cache holds 300 by 100.  When the second
    transition ends, the measured dimensions equal the cached ones, yet
    no listener is left: both loops keep running and are scheduled again
    at every frame. *)
Lemma overlapping_transitions_keep_polling :
  exists w1 w2 w3,
    run plainGlobals pageSetUp overlappingTransitions = Some w1
    /\ loops w1 = [mkLoop 0 Transition true true false; mkLoop 0 Transition true true false]
    /\ nth_error (sessions w1) 0 = Some diagonalSession
    /\ parentSettled w1 diagonalSession = true
    /\ step plainGlobals w1 (EndEvent Transition Target) = Some w2
    /\ loops w2 = [mkLoop 0 Transition true true false; mkLoop 0 Transition true true false]
    /\ run plainGlobals w2 [AnimationFrame; AnimationFrame] = Some w3
    /\ loops w3 = [mkLoop 0 Transition true true false; mkLoop 0 Transition true true false]
    /\ dataWidth (el w3) = Some "300".
Proof.
  eexists. eexists. eexists. split; [vm_compute; reflexivity|].
  split; [vm_compute; reflexivity|].
  split; [vm_compute; reflexivity|].
  split; [vm_compute; reflexivity|].
  split; [vm_compute; reflexivity|].
  split; [vm_compute; reflexivity|].
  split; [vm_compute; reflexivity|].
  evaluate.
Qed.

(** While its box differs from the cache at the end event, the loop goes
    on: it renders on the next frame. *)
Lemma polling_continues_when_not_settled :
  exists w1 w2,
    run plainGlobals pagePolling
      [Resized Target (ofZ 300, ofZ 100); EndEvent Transition Target;
       Resized Target (ofZ 250, ofZ 100)] = Some w1
    /\ loops w1 = [mkLoop 0 Transition true true false]
    /\ run plainGlobals w1 [AnimationFrame; EndEvent Transition Target; AnimationFrame]
       = Some w2
    /\ loops w2 = [mkLoop 0 Transition true true false]
    /\ dataWidth (el w2) = Some "250"
    /\ sinkCalls w2 = 2%nat.
Proof.
  eexists. eexists. split; [vm_compute; reflexivity|].
  evaluate.
Qed.

(** ** Teardown *)

(** After [destroy()] the session's observer is disconnected, and a
    resize notification for it renders nothing. *)
Lemma destroy_stops_resize_observation (g : Globals) (w : World) (h : Handle)
    (s : Session) (entries : nat) :
  nth_error (sessions w) (handleSession h) = Some s ->
  nth_error (sessions (destroy h w)) (handleSession h) = Some (disconnect s)
  /\ step g (destroy h w) (ResizeNotification (handleSession h) entries)
     = Some (destroy h w).
Proof.
  intros Hs.
  assert (Hd : nth_error (sessions (destroy h w)) (handleSession h) = Some (disconnect s)).
  { unfold destroy. cbn [withSessions sessions].
    revert Hs. generalize (handleSession h) as i. generalize (sessions w) as ss.
    induction ss as [|x ss IH]; intros [|i] H; simpl in *; try discriminate.
    - inversion H; subst. reflexivity.
    - apply IH. exact H. }
  split; [exact Hd|]. cbn [step]. rewrite Hd. reflexivity.
Qed.

(** C1, evaluated on the code: [destroy()] disconnects the observer only.
    A loop that is polling when the handle is destroyed goes on rendering:
    the target grows to 300 by 100 after the teardown and the next
    animation frame hands new paths to the sink.  The start listeners stay
    as well: a transition that starts after the teardown renders. *)
Theorem polling_survives_destroy :
  (exists w1 w2,
     run plainGlobals page200x100
       [Setup diagonal false false; StartEvent Transition Target; Destroy (mkHandle 0)]
     = Some w1
     /\ sinkLog w1 = [diagonalAt200x100]
     /\ List.map observing (sessions w1) = [false]
     /\ run plainGlobals w1 [Resized Target (ofZ 300, ofZ 100); AnimationFrame] = Some w2
     /\ sinkLog w2 = [diagonalAt200x100; diagonalAt300x100])
  /\ (exists w1 w2,
        run plainGlobals page200x100 [Setup diagonal false false; Destroy (mkHandle 0)]
        = Some w1
        /\ sinkLog w1 = []
        /\ run plainGlobals w1 [StartEvent Transition Target] = Some w2
        /\ sinkLog w2 = [diagonalAt200x100]
        /\ loops w2 = [mkLoop 0 Transition true true true]).
Proof.
  split.
  - eexists. eexists. split; [vm_compute; reflexivity|].
    evaluate.
  - eexists. eexists. split; [vm_compute; reflexivity|].
    evaluate.
Qed.


(* ================================================================== *)
(** * Further properties of the code *)

(** ** The watched ancestor *)

Lemma findRelativeParent_from (chain : list Ancestor) (start : nat) :
  match findRelativeParent start chain with
  | Some i =>
      (start <= i)%nat
      /\ (exists a, nth_error chain (i - start) = Some a /\ isAnimated a = true)
      /\ (forall j b, (j < i - start)%nat -> nth_error chain j = Some b ->
                      isAnimated b = false)
  | None => forall a, In a chain -> isAnimated a = false
  end.
Proof.
  revert start. induction chain as [|a chain IH]; intros start; simpl.
  - intros a [].
  - destruct (isAnimated a) eqn:Ea.
    + split; [lia|]. rewrite Nat.sub_diag. split.
      * exists a. split; [reflexivity|exact Ea].
      * intros j b Hj. lia.
    + specialize (IH (S start)).
      destruct (findRelativeParent (S start) chain) as [i|].
      * destruct IH as (Hle & (b & Hb & Hab) & Hbefore).
        split; [lia|].
        replace (i - start)%nat with (S (i - S start)) by lia. split.
        -- exists b. split; [exact Hb|exact Hab].
        -- intros [|j] c Hj Hc; simpl in Hc.
           ++ inversion Hc; subst. exact Ea.
           ++ apply (Hbefore j c); [lia|exact Hc].
      * intros b [<-|Hb]; [exact Ea|apply IH, Hb].
Qed.

(** X1: [findRelativeParent] returns the nearest ancestor whose computed
    style names an animation, or a transition property other than [all]
    and [none]: every ancestor nearer to the target fails the test; it
    returns nothing exactly when no ancestor passes.  An ancestor with the
    initial style ([animation-name: none], [transition-property: all]) does
    not pass. *)
Theorem findRelativeParent_nearest :
  forall (chain : list Ancestor),
    match findRelativeParent 0 chain with
    | Some i =>
        (exists a, nth_error chain i = Some a /\ isAnimated a = true)
        /\ (forall j b, (j < i)%nat -> nth_error chain j = Some b -> isAnimated b = false)
    | None => forall a, In a chain -> isAnimated a = false
    end
    /\ (forall box, isAnimated (mkAncestor "none" "all" box) = false).
Proof.
  intros chain. split; [|reflexivity].
  pose proof (findRelativeParent_from chain 0) as H.
  destruct (findRelativeParent 0 chain) as [i|]; [|exact H].
  rewrite Nat.sub_0_r in H. destruct H as (_ & Ha & Hb). split; assumption.
Qed.

(** X2: [setupSvgRenderer] renders nothing by itself and leaves the
    target, the sessions and the loops that exist as they are; it adds one
    session with a connected observer, whose index is the handle, and
    installs that session's [render] on the element.  The session watches
    the target itself exactly when no ancestor passes the test of
    [findRelativeParent]. *)
Theorem setup_registers_one_session :
  forall (paths : Paths) (blur vb : bool) (w : World),
    exists s,
      sessions (fst (setupSvgRenderer paths blur vb w)) = (sessions w ++ [s])%list
      /\ handleSession (snd (setupSvgRenderer paths blur vb w)) = List.length (sessions w)
      /\ sPaths s = paths /\ observing s = true
      /\ (parentElement s = Target
          <-> forall a, In a (ancestors w) -> isAnimated a = false)
      /\ el (fst (setupSvgRenderer paths blur vb w)) = el w
      /\ sinkLog (fst (setupSvgRenderer paths blur vb w)) = sinkLog w
      /\ loops (fst (setupSvgRenderer paths blur vb w)) = loops w
      /\ elRender (fst (setupSvgRenderer paths blur vb w)) = Some (List.length (sessions w)).
Proof.
  intros paths blur vb w. eexists. cbn [setupSvgRenderer fst snd sessions handleSession
    el sinkLog loops elRender]. split; [reflexivity|].
  cbn [sPaths observing parentElement]. repeat (split; [reflexivity|]).
  split; [|repeat split].
  pose proof (findRelativeParent_from (ancestors w) 0) as H.
  destruct (findRelativeParent 0 (ancestors w)) as [i|].
  - destruct H as (_ & (a & Ha & Hanim) & _). split; [discriminate|].
    intros Hall. apply nth_error_In in Ha. rewrite (Hall a Ha) in Hanim. discriminate.
  - split; [intros _; exact H|reflexivity].
Qed.

(** ** The compiler on whole descriptors *)

Lemma mapM_Forall2 {A B : Type} (f : A -> option B) (xs : list A) (ys : list B) :
  mapM f xs = Some ys <-> Forall2 (fun x y => f x = Some y) xs ys.
Proof.
  revert ys. induction xs as [|x xs IH]; intros ys; simpl.
  - split.
    + intros H. inversion H. constructor.
    + intros H. inversion H. reflexivity.
  - split.
    + destruct (f x) as [y|] eqn:E; [|discriminate].
      destruct (mapM f xs) as [ys'|] eqn:E'; simpl; [|discriminate].
      intros H. inversion H; subst. constructor; [exact E|]. apply IH. reflexivity.
    + intros H. inversion H as [|x0 y xs0 ys' Hxy Hrest]; subst.
      rewrite Hxy. apply IH in Hrest. rewrite Hrest. reflexivity.
Qed.

(** X3: the compiler keeps the shape of the descriptor.  The result has
    one entry per sub-path, in the same order; each entry carries the name,
    the visibility flag and the style of its sub-path unchanged, and its
    path data is made of one text per command of that sub-path alone. *)
Theorem createSvgPaths_keeps_shape :
  forall (g : Globals) (paths : Paths) (width height : float) (out : list SvgPath),
    createSvgPaths g paths width height = Some out ->
    List.length out = List.length paths
    /\ Forall2
         (fun p o =>
            svgName o = name p /\ svgShow o = show p /\ svgStyle o = style p
            /\ exists cs,
                 Forall2 (fun c t => compileCommand g width height c = Some t) (path p) cs
                 /\ svgPath o = join " " cs)
         paths out.
Proof.
  intros g paths width height out H. unfold createSvgPaths in H.
  apply mapM_Forall2 in H. split.
  - symmetry. exact (Forall2_length H).
  - induction H as [|p o ps os Hp _ IH]; constructor; [|exact IH].
    unfold compilePath in Hp.
    destruct (mapM (compileCommand g width height) (path p)) as [cs|] eqn:E;
      [|discriminate].
    inversion Hp; subst. cbn [svgName svgShow svgStyle svgPath].
    repeat split. exists cs. split; [apply mapM_Forall2, E|reflexivity].
Qed.

(** X3, witness: [twoPaths] at 200 by 100. *)
Lemma createSvgPaths_keeps_shape_witness :
  List.length
    [mkSvgPath (Some "frame") (Some true) plainStyle "M 0,0 L 200,0";
     mkSvgPath (Some "mark") (Some false) (mkStyle "2" "red" "blue") "M 100,50"]
  = List.length twoPaths.
Proof.
  apply (createSvgPaths_keeps_shape plainGlobals twoPaths (ofZ 200) (ofZ 100)).
  vm_compute. reflexivity.
Defined.

Lemma relabel_compiles_alike (g : Globals) (width height : float)
    (nm : Path -> option string) (sh : Path -> option bool) (paths : Paths) :
  option_map (List.map toPathElement)
    (createSvgPaths g (List.map (relabel nm sh) paths) width height)
  = option_map (List.map toPathElement) (createSvgPaths g paths width height).
Proof.
  unfold createSvgPaths. induction paths as [|p ps IH]; [reflexivity|].
  cbn [List.map mapM]. unfold compilePath at 1 3. cbn [relabel path style name show].
  destruct (mapM (compileCommand g width height) (path p)) as [cs|]; [|reflexivity].
  cbn [option_map].
  destruct (mapM (compilePath g width height) (List.map (relabel nm sh) ps)) as [a|];
    destruct (mapM (compilePath g width height) ps) as [b|];
    cbn [option_map] in *; try discriminate; [|reflexivity].
  inversion IH as [Hab]. cbn [List.map]. rewrite Hab. reflexivity.
Qed.

(** X4: the sink does not look at [name] and [show].  Whatever names and
    visibility flags the sub-paths are given, [createSvgElement] leaves
    the same element behind: a sub-path with [show: false] gets its
    [<path>] like any other. *)
Theorem sink_ignores_name_and_show :
  forall (g : Globals) (e : SvgElement) (paths : Paths) (width height : float)
         (blur vb : bool) (nm : Path -> option string) (sh : Path -> option bool),
    option_map fst
      (createSvgElement g e (List.map (relabel nm sh) paths) width height blur vb)
    = option_map fst (createSvgElement g e paths width height blur vb).
Proof.
  intros g e paths width height blur vb nm sh. unfold createSvgElement.
  destruct (dimensionsChanged e width height); [|reflexivity].
  pose proof (relabel_compiles_alike g width height nm sh paths) as H.
  destruct (createSvgPaths g (List.map (relabel nm sh) paths) width height) as [a|];
    destruct (createSvgPaths g paths width height) as [b|];
    cbn [option_map fst] in *; try discriminate; [|reflexivity].
  inversion H as [Hab]. rewrite Hab. reflexivity.
Qed.

(** ** The rewriting steps of the resolver *)

(** Replacing a text by itself changes nothing. *)
Lemma replaceAllFrom_same (a : ascii) (p : string) (n : nat) :
  forall s, (length s <= n)%nat ->
            replaceAllFrom (String a p) (String a p) 0 s = s.
Proof.
  induction n as [|n IH]; intros s Hn.
  - destruct s; [reflexivity|simpl in Hn; lia].
  - destruct s as [|c r]; [reflexivity|].
    cbn [replaceAllFrom].
    destruct (prefix (String a p) (String c r)) eqn:Ep.
    + destruct (prefix_split _ _ Ep) as [rest Hrest].
      change (String a p ++ rest) with (String a (p ++ rest)) in Hrest.
      inversion Hrest; subst c r. cbn [length Nat.pred].
      rewrite replaceAllFrom_skip, IH; [reflexivity|].
      simpl in Hn. rewrite string_length_append in Hn. lia.
    + rewrite IH; [reflexivity|]. simpl in Hn. lia.
Qed.

Lemma replaceAll_same (pat s : string) : replaceAll pat pat s = s.
Proof.
  unfold replaceAll. destruct pat as [|a p]; [reflexivity|].
  apply (replaceAllFrom_same a p (length s)). apply Nat.le_refl.
Qed.

(** X5: the last step of [evalExpression]'s rewriting,
    [.replace(/100/g, "100")], never changes the text: the text handed to
    the evaluator is the one left by the substitution of [height]. *)
Theorem final_replace_changes_nothing :
  forall (expr : string) (width height : float),
    replaced expr width height
    = substituteHeight height (substituteWidth width (replacePercentLiterals expr)).
Proof.
  intros expr width height. unfold replaced. apply replaceAll_same.
Qed.

Lemma existsb_append (q : ascii -> bool) (a b : string) :
  existsb q (a ++ b) = (existsb q a || existsb q b)%bool.
Proof.
  induction a as [|c a IH]; simpl; [reflexivity|].
  rewrite IH, orb_assoc. reflexivity.
Qed.

(** After [.replace(/%/g, rep)] no percent sign is left, when [rep] has
    none. *)
Lemma no_percent_after_replace (rep s : string) :
  includesChar "%" rep = false ->
  includesChar "%" (replaceAll "%" rep s) = false.
Proof.
  unfold includesChar, replaceAll. intros Hrep.
  induction s as [|c r IH]; [reflexivity|].
  cbn [replaceAllFrom length Nat.pred]. rewrite prefix_single.
  destruct (Ascii.eqb "%" c) eqn:Ec.
  - rewrite existsb_append, Hrep, IH. reflexivity.
  - cbn [existsb]. rewrite Ec, IH. reflexivity.
Qed.

Lemma span_rest_lacks (p q : ascii -> bool) (s : string) :
  existsb q s = false -> existsb q (snd (span p s)) = false.
Proof.
  induction s as [|c r IH]; intros H; [reflexivity|].
  cbn [existsb] in H. apply orb_false_elim in H. destruct H as [Hc Hr].
  cbn [span]. destruct (p c).
  - specialize (IH Hr). destruct (span p r) as [a b]. exact IH.
  - cbn [snd existsb]. rewrite Hc, Hr. reflexivity.
Qed.

(** A text without percent sign has no percentage literal to rewrite. *)
Lemma replacePercentLiterals_without_percent (s : string) :
  includesChar "%" s = false -> replacePercentLiterals s = s.
Proof.
  unfold replacePercentLiterals, includesChar.
  induction s as [|c r IH]; intros H; [reflexivity|].
  pose proof H as H0. cbn [existsb] in H. apply orb_false_elim in H.
  destruct H as [Hc Hr]. cbn [replacePercentLiteralsFrom].
  destruct (isDigitOrDot c); [|rewrite (IH Hr); reflexivity].
  pose proof (span_rest_lacks isDigitOrDot (Ascii.eqb "%") (String c r) H0) as Hrest.
  destruct (span isDigitOrDot (String c r)) as [num rest]. cbn [snd] in Hrest.
  destruct rest as [|c' rest']; cbn [startsWith].
  - rewrite (IH Hr). reflexivity.
  - cbn [existsb] in Hrest. apply orb_false_elim in Hrest. destruct Hrest as [Hc' _].
    rewrite Hc', (IH Hr). reflexivity.
Qed.

(** X6: the first step of [evalExpression], which turns a percentage
    literal [N%] into [(N / 100)], never applies to an operand that comes
    from [createSvgPaths]: the compiler has already replaced every percent
    sign, so the text passes that step unchanged and a percentage always
    means a share of the width (x) or of the height (y). *)
Theorem percent_literal_step_is_idle :
  forall (operand : string),
    replacePercentLiterals (expressionText "width" operand)
    = expressionText "width" operand
    /\ replacePercentLiterals (expressionText "height" operand)
       = expressionText "height" operand.
Proof.
  intros operand. unfold expressionText.
  split; apply replacePercentLiterals_without_percent, no_percent_after_replace;
    reflexivity.
Qed.

Lemma join_append (sep : string) (xs ys : list string) :
  xs <> [] -> ys <> [] ->
  join sep (xs ++ ys) = join sep xs ++ sep ++ join sep ys.
Proof.
  intros Hx Hy. induction xs as [|x xs IH]; [contradiction|].
  destruct xs as [|x' xs].
  - simpl. destruct ys; [contradiction|reflexivity].
  - change ((x :: x' :: xs) ++ ys)%list with (x :: ((x' :: xs) ++ ys))%list.
    change (join sep (x :: (x' :: xs) ++ ys)%list)
      with (x ++ sep ++ join sep ((x' :: xs) ++ ys)%list).
    rewrite IH by discriminate.
    change (join sep (x :: x' :: xs)) with (x ++ sep ++ join sep (x' :: xs)).
    rewrite !string_append_assoc. reflexivity.
Qed.

Lemma mapM_nonempty {A B : Type} (f : A -> option B) (xs : list A) (ys : list B) :
  mapM f xs = Some ys -> xs <> [] -> ys <> [].
Proof.
  intros H Hx. apply mapM_Forall2 in H. destruct H; [contradiction|discriminate].
Qed.

(** X7: path data composes.  The data of a sub-path made of two
    non-empty runs of commands is the data of the first run, one space, and
    the data of the second run; name, visibility and style are those of the
    sub-path. *)
Theorem path_data_of_concatenation :
  forall (g : Globals) (width height : float) (nm : option string) (sh : option bool)
         (st : Style) (before after : list PathCommand) (o1 o2 : SvgPath),
    before <> [] -> after <> [] ->
    compilePath g width height (mkPath nm sh st before) = Some o1 ->
    compilePath g width height (mkPath nm sh st after) = Some o2 ->
    compilePath g width height (mkPath nm sh st (before ++ after))
    = Some (mkSvgPath nm sh st (svgPath o1 ++ " " ++ svgPath o2)).
Proof.
  intros g width height nm sh st before after o1 o2 Hb Ha H1 H2.
  unfold compilePath in *. cbn [path name show style] in *.
  destruct (mapM (compileCommand g width height) before) as [tb|] eqn:Eb; [|discriminate].
  destruct (mapM (compileCommand g width height) after) as [ta|] eqn:Ea; [|discriminate].
  inversion H1; subst o1. inversion H2; subst o2. cbn [svgPath].
  rewrite (mapM_app _ _ _ _ _ Eb Ea). cbn [option_map].
  rewrite join_append; [reflexivity| |].
  - exact (mapM_nonempty _ _ _ Eb Hb).
  - exact (mapM_nonempty _ _ _ Ea Ha).
Qed.

(** X7, witness: the diagonal is its move followed by its line. *)
Lemma path_data_of_concatenation_witness :
  compilePath plainGlobals (ofZ 200) (ofZ 100)
    (mkPath None None plainStyle ([(M, "10%", "10%")] ++ [(L, "90%", "50%")]))
  = Some (mkSvgPath None None plainStyle "M 20,10 L 180,50").
Proof.
  apply (path_data_of_concatenation plainGlobals (ofZ 200) (ofZ 100) None None plainStyle
           [(M, "10%", "10%")] [(L, "90%", "50%")]
           (mkSvgPath None None plainStyle "M 20,10")
           (mkSvgPath None None plainStyle "L 180,50"));
    first [discriminate | vm_compute; reflexivity].
Defined.


(** ** One event, at most one render *)

Section Deduplication.

Variable g : Globals.

(** The box and the sessions are those of [w], and the sink was called at
    most once since [w]. *)
Let within (w w0 : World) : Prop :=
  (elBox w0 = elBox w /\ sessions w0 = sessions w) /\ renderedAtMostOnce g w w0.

Lemma within_refl (w : World) : within w w.
Proof. split; [split; reflexivity|]. left. split; reflexivity. Qed.

Lemma within_render (sid : nat) (w w0 w1 : World) :
  within w w0 -> render g sid w0 = Some w1 -> within w w1.
Proof.
  intros [[Hbox Hss] Honce] Hr.
  destruct (render_frame g sid w0 w1 Hr) as [(Hb1 & _ & Hs1 & _) _].
  split; [split; congruence|].
  destruct (dimensionsChanged (el w0) (fst (elBox w0)) (snd (elBox w0))) eqn:Hd.
  - destruct (nth_error (sessions w0) sid) as [s|] eqn:Es.
    + destruct (createSvgPaths g (sPaths s) (fst (elBox w0)) (snd (elBox w0)))
        as [c|] eqn:Ec.
      * destruct (render_commit g sid w0 s c Es Hd Ec)
          as (w1' & Hr' & Hl & Hw & Hh & Hp & Hb & _).
        rewrite Hr in Hr'. inversion Hr'; subst w1'.
        destruct Honce as [[He Hlog]|(s0 & c0 & _ & _ & _ & _ & Hcur)].
        -- right. exists s, c. rewrite <- Hbox, <- Hlog. repeat split; try assumption.
           ++ rewrite <- Hss. exact (nth_error_In _ _ Es).
           ++ unfold cacheCurrent. apply dimensionsChanged_false.
              rewrite Hb. split; assumption.
        -- unfold cacheCurrent in Hcur. congruence.
      * exfalso. unfold render in Hr. rewrite Es in Hr.
        destruct (elBox w0) as [width height]. cbn [fst snd] in *.
        unfold createSvgElement in Hr. rewrite Hd, Ec in Hr. discriminate.
    + unfold render in Hr. rewrite Es in Hr. inversion Hr; subst. exact Honce.
  - rewrite (render_skip g sid w0 Hd) in Hr. inversion Hr; subst. exact Honce.
Qed.

Lemma within_withLoops (w w0 : World) (ls : list Loop) :
  within w w0 -> within w (withLoops w0 ls).
Proof. intros H. exact H. Qed.

Lemma within_repeatRender (sid n : nat) (w w0 w1 : World) :
  within w w0 -> repeatRender g sid n w0 = Some w1 -> within w w1.
Proof.
  revert w0. induction n as [|n IH]; intros w0 Hw H; simpl in H.
  - inversion H; subst. exact Hw.
  - destruct (render g sid w0) as [w2|] eqn:Er; [|discriminate]. simpl in H.
    exact (IH w2 (within_render sid w w0 w2 Hw Er) H).
Qed.

Lemma within_runCallbacks (ls : list Loop) (w w0 w1 : World) :
  within w w0 -> runCallbacks g ls w0 = Some w1 -> within w w1.
Proof.
  revert w0. induction ls as [|l ls IH]; intros w0 Hw H; simpl in H.
  - inversion H; subst. exact Hw.
  - destruct (frameCallback g l w0) as [w2|] eqn:Ef; [|discriminate]. simpl in H.
    apply (IH w2); [|exact H].
    unfold frameCallback in Ef. destruct (scheduled l && running l)%bool.
    + exact (within_render _ w w0 w2 Hw Ef).
    + inversion Ef; subst. exact Hw.
Qed.

Lemma within_dispatchStart (k : Kind) (n : Node) (ss : list Session) (sid : nat)
    (w w0 w1 : World) :
  within w w0 -> dispatchStart g k n sid ss w0 = Some w1 -> within w w1.
Proof.
  revert sid w0. induction ss as [|s ss IH]; intros sid w0 Hw H; simpl in H.
  - inversion H; subst. exact Hw.
  - destruct (Node_eqb (parentElement s) n).
    + unfold startHandler in H.
      destruct (render g sid w0) as [w2|] eqn:Er; [|discriminate]. simpl in H.
      apply (IH (S sid) _ (within_withLoops w w2 _ (within_render sid w w0 w2 Hw Er)) H).
    + simpl in H. exact (IH (S sid) w0 Hw H).
Qed.

(** X8: one event leads to at most one call of the sink, however many
    sessions, polling loops and resize entries take part in it: the first
    render that finds other dimensions in the cache commits, and all later
    ones in the same event are skipped.  When the sink is called, the target
    afterwards shows exactly the paths of one session compiled for the
    current box, and the cache holds that box. *)
Theorem one_event_renders_at_most_once :
  forall (w w1 : World) (e : Event),
    step g w e = Some w1 -> renderedAtMostOnce g w w1.
Proof.
  intros w w1 e H.
  destruct e as [paths blur vb|h| |n b|sid entries|k n|k n| ]; cbn [step] in H.
  - inversion H; subst. left. split; reflexivity.
  - inversion H; subst. left. split; reflexivity.
  - destruct (elRender w) as [sid|].
    + exact (proj2 (within_render sid w w w1 (within_refl w) H)).
    + inversion H; subst. left. split; reflexivity.
  - inversion H; subst. left. destruct n; split; reflexivity.
  - destruct (nth_error (sessions w) sid) as [s|].
    + destruct (observing s).
      * exact (proj2 (within_repeatRender sid entries w w w1 (within_refl w) H)).
      * inversion H; subst. left. split; reflexivity.
    + inversion H; subst. left. split; reflexivity.
  - exact (proj2 (within_dispatchStart k n _ _ w w w1 (within_refl w) H)).
  - inversion H; subst. left. split; reflexivity.
  - destruct (runCallbacks g (loops w) w) as [w0|] eqn:Er; [|discriminate].
    simpl in H. inversion H; subst.
    exact (proj2 (within_withLoops w w0 _ (within_runCallbacks _ w w w0 (within_refl w) Er))).
Qed.

End Deduplication.

(** X8, witness: three polling loops and one frame after the target grew:
    one call of the sink. *)
Lemma one_event_renders_at_most_once_witness :
  exists w0 w1,
    run plainGlobals pageSetUp
      [StartEvent Transition Target; StartEvent Transition Target;
       StartEvent Animation Target; Resized Target (ofZ 300, ofZ 100)] = Some w0
    /\ List.length (loops w0) = 3%nat
    /\ step plainGlobals w0 AnimationFrame = Some w1
    /\ renderedAtMostOnce plainGlobals w0 w1
    /\ sinkLog w1 = [diagonalAt200x100; diagonalAt300x100].
Proof.
  eexists. eexists. split; [vm_compute; reflexivity|].
  split; [vm_compute; reflexivity|].
  split; [vm_compute; reflexivity|].
  split; [|vm_compute; reflexivity].
  apply (one_event_renders_at_most_once plainGlobals _ _ AnimationFrame).
  vm_compute. reflexivity.
Defined.

(** ** Only the target's box triggers a render *)

Section Quiet.

Variable g : Globals.

(** What an event leaves alone when nothing is rendered. *)
Let untouched (w w1 : World) : Prop :=
  el w1 = el w /\ sinkLog w1 = sinkLog w /\ elBox w1 = elBox w.

Lemma repeatRender_current (sid n : nat) (w : World) :
  cacheCurrent w -> repeatRender g sid n w = Some w.
Proof.
  intros H. induction n as [|n IH]; [reflexivity|].
  cbn [repeatRender]. rewrite (render_skip g sid w H). exact IH.
Qed.

Lemma runCallbacks_current (ls : list Loop) (w : World) :
  cacheCurrent w -> runCallbacks g ls w = Some w.
Proof.
  intros H. induction ls as [|l ls IH]; [reflexivity|].
  cbn [runCallbacks]. unfold frameCallback.
  destruct (scheduled l && running l)%bool; [rewrite (render_skip g _ w H)|]; exact IH.
Qed.

Lemma dispatchStart_current (k : Kind) (n : Node) (ss : list Session) (sid : nat)
    (w : World) :
  cacheCurrent w ->
  exists w1, dispatchStart g k n sid ss w = Some w1 /\ untouched w w1.
Proof.
  revert sid w. induction ss as [|s ss IH]; intros sid w H; cbn [dispatchStart].
  - exists w. repeat split.
  - destruct (Node_eqb (parentElement s) n).
    + unfold startHandler. rewrite (render_skip g sid w H). cbn [andThen].
      destruct (IH (S sid) (withLoops w (loops w ++ [mkLoop sid k true true true])) H)
        as (w1 & Hd & Hu).
      exists w1. split; [exact Hd|exact Hu].
    + cbn [andThen]. exact (IH (S sid) w H).
Qed.

Lemma step_current (w : World) (e : Event) :
  cacheCurrent w -> changesTargetBox e = false ->
  exists w1, step g w e = Some w1 /\ untouched w w1.
Proof.
  intros H He.
  destruct e as [paths blur vb|h| |n b|sid entries|k n|k n| ]; cbn [step].
  - eexists. split; [reflexivity|repeat split].
  - eexists. split; [reflexivity|repeat split].
  - destruct (elRender w) as [sid|].
    + rewrite (render_skip g sid w H). exists w. repeat split.
    + exists w. repeat split.
  - destruct n as [|i]; [discriminate|]. eexists. split; [reflexivity|repeat split].
  - destruct (nth_error (sessions w) sid) as [s|].
    + destruct (observing s).
      * rewrite (repeatRender_current sid entries w H). exists w. repeat split.
      * exists w. repeat split.
    + exists w. repeat split.
  - exact (dispatchStart_current k n (sessions w) 0 w H).
  - eexists. split; [reflexivity|repeat split].
  - rewrite (runCallbacks_current (loops w) w H). cbn [andThen].
    eexists. split; [reflexivity|repeat split].
Qed.

(** X9: while the cache holds the box of the target, nothing but a change
    of that box leads to a render.  From such a state every sequence of
    events that does not resize the target (set-ups, teardowns, calls of
    [el.render], resize notifications, resizes of ancestors, transition and
    animation starts and ends, animation frames) runs to its end without
    compiling anything or calling the sink, and leaves the target element
    as it is. *)
Theorem no_render_without_target_resize :
  forall (es : list Event) (w : World),
    cacheCurrent w ->
    List.forallb (fun e => negb (changesTargetBox e)) es = true ->
    exists w1,
      run g w es = Some w1
      /\ el w1 = el w /\ sinkLog w1 = sinkLog w /\ cacheCurrent w1.
Proof.
  induction es as [|e es IH]; intros w H Hes.
  - exists w. repeat split. exact H.
  - cbn [List.forallb] in Hes. apply andb_true_iff in Hes. destruct Hes as [He Hes].
    apply negb_true_iff in He.
    destruct (step_current w e H He) as (w0 & Hs & Hel & Hlog & Hbox).
    assert (H0 : cacheCurrent w0).
    { unfold cacheCurrent in *. rewrite Hel, Hbox. exact H. }
    destruct (IH w0 H0 Hes) as (w1 & Hr & Hel1 & Hlog1 & H1).
    exists w1. cbn [run]. rewrite Hs. cbn [andThen].
    repeat split; try assumption; congruence.
Qed.

End Quiet.

(** X9, witness: on the page rendered at 200 by 100, a resize of an
    ancestor, a new set-up, a transition with three frames and a manual
    render leave one entry in the sink log. *)
Lemma no_render_without_target_resize_witness :
  exists w1,
    run plainGlobals pagePolling
      [Resized (AncestorAt 0) (ofZ 500, ofZ 500); Setup twoPaths true true;
       StartEvent Transition Target; AnimationFrame; AnimationFrame;
       ResizeNotification 1 3; EndEvent Transition Target; AnimationFrame; CallRender]
    = Some w1
    /\ el w1 = el pagePolling /\ sinkLog w1 = sinkLog pagePolling /\ cacheCurrent w1.
Proof.
  apply (no_render_without_target_resize plainGlobals); vm_compute; reflexivity.
Defined.

(** ** The life of a polling loop *)

Lemma dispatchStart_loops (g : Globals) (k : Kind) (n : Node) (ss : list Session)
    (sid : nat) (w w1 : World) :
  dispatchStart g k n sid ss w = Some w1 ->
  loops w1 = (loops w ++ List.map (freshLoop k) (watchers n sid ss))%list.
Proof.
  revert sid w. induction ss as [|s ss IH]; intros sid w H; cbn [dispatchStart watchers] in *.
  - inversion H; subst. cbn [List.map]. rewrite app_nil_r. reflexivity.
  - destruct (Node_eqb (parentElement s) n).
    + unfold startHandler in H.
      destruct (render g sid w) as [w0|] eqn:Er; [|discriminate]. cbn [andThen] in H.
      destruct (render_frame g sid w w0 Er) as [(_ & _ & _ & Hl & _) _].
      rewrite (IH (S sid) _ H). cbn [withLoops loops List.map]. rewrite Hl.
      rewrite <- app_assoc. reflexivity.
    + cbn [andThen] in H. exact (IH (S sid) w H).
Qed.

(** X10: every start event stacks a new polling loop.  A transition or
    animation start on a node gives each session that watches the node,
    torn down or not, one more loop that is running, scheduled and
    listening for the end event; the loops that exist stay in the frame
    queue as they are, whether or not one is polling already. *)
Theorem start_event_stacks_loops :
  forall (g : Globals) (w w1 : World) (k : Kind) (n : Node),
    step g w (StartEvent k n) = Some w1 ->
    loops w1 = (loops w ++ List.map (freshLoop k) (watchers n 0 (sessions w)))%list
    /\ sessions w1 = sessions w.
Proof.
  intros g w w1 k n H. cbn [step] in H. split.
  - exact (dispatchStart_loops g k n _ _ w w1 H).
  - exact (proj2 (dispatchStart_frame g k n _ _ w w1 H)).
Qed.

(** X10, witness: a second transition start on the polling page, after the
    session was destroyed, adds a second loop. *)
Lemma start_event_stacks_loops_witness :
  exists w1,
    step plainGlobals (destroy (mkHandle 0) pagePolling) (StartEvent Transition Target)
    = Some w1
    /\ loops w1 = [freshLoop Transition 0; freshLoop Transition 0].
Proof.
  assert (Hs : exists w1, step plainGlobals (destroy (mkHandle 0) pagePolling)
                            (StartEvent Transition Target) = Some w1)
    by (eexists; vm_compute; reflexivity).
  destruct Hs as [w1 Hs]. exists w1. split; [exact Hs|].
  destruct (start_event_stacks_loops plainGlobals _ w1 Transition Target Hs) as [Hl _].
  etransitivity; [exact Hl|]. vm_compute. reflexivity.
Defined.

(** How one event treats the loop at a given place of the queue. *)
Lemma step_loop_at (g : Globals) (w w1 : World) (e : Event) (i : nat) (l : Loop) :
  nth_error (loops w) i = Some l ->
  step g w e = Some w1 ->
  nth_error (loops w1) i = Some l
  \/ (exists k n, nth_error (loops w1) i = Some (endHandler w k n l))
  \/ nth_error (loops w1) i = Some (afterFrame l).
Proof.
  intros Hl H.
  destruct e as [paths blur vb|h| |n b|sid entries|k n|k n| ]; cbn [step] in H.
  - inversion H; subst. left. exact Hl.
  - inversion H; subst. left. exact Hl.
  - left. destruct (elRender w) as [sid|].
    + destruct (render_frame g sid w w1 H) as [(_ & _ & _ & Hls & _) _]. congruence.
    + inversion H; subst. exact Hl.
  - inversion H; subst. left. destruct n; exact Hl.
  - left. destruct (nth_error (sessions w) sid) as [s|].
    + destruct (observing s).
      * destruct (repeatRender_frame g sid entries w w1 H) as [(_ & _ & _ & Hls & _) _].
        congruence.
      * inversion H; subst. exact Hl.
    + inversion H; subst. exact Hl.
  - left. rewrite (dispatchStart_loops g k n _ _ w w1 H).
    rewrite nth_error_app1; [exact Hl|].
    apply nth_error_Some. rewrite Hl. discriminate.
  - inversion H; subst. right. left. exists k, n.
    cbn [withLoops loops]. rewrite nth_error_map, Hl. reflexivity.
  - destruct (runCallbacks g (loops w) w) as [w0|] eqn:Er; [|discriminate].
    cbn [andThen] in H. inversion H; subst. right. right.
    destruct (runCallbacks_frame g _ w w0 Er) as [(_ & _ & _ & Hls & _) _].
    cbn [withLoops loops]. rewrite Hls, nth_error_map, Hl. reflexivity.
Qed.

(** X11: a loop that has lost its end listener while still running can
    not be stopped.  Whatever events follow (end events, frames, teardown of
    its session, new set-ups), it stays in the frame queue, running and
    scheduled, and so calls [render] on every animation frame for as long
    as the page lives. *)
Theorem runaway_loop_never_stops :
  forall (g : Globals) (es : list Event) (w w1 : World) (i : nat) (l : Loop),
    nth_error (loops w) i = Some l ->
    running l = true -> scheduled l = true -> endListener l = false ->
    run g w es = Some w1 ->
    nth_error (loops w1) i = Some l
    /\ forall w2, frameCallback g l w2 = render g (loopSession l) w2.
Proof.
  intros g es w w1 i l Hl Hrun Hsch Hend H. split.
  - revert w Hl H. induction es as [|e es IH]; intros w Hl H; cbn [run] in H.
    + inversion H; subst. exact Hl.
    + destruct (step g w e) as [w0|] eqn:Es; [|discriminate]. cbn [andThen] in H.
      apply (IH w0); [|exact H].
      destruct (step_loop_at g w w0 e i l Hl Es) as [Hs|[(k & n & Hs)|Hs]].
      * exact Hs.
      * rewrite Hs, (endHandler_removed w k n l Hend). reflexivity.
      * rewrite Hs. unfold afterFrame. rewrite Hsch, Hrun. reflexivity.
  - intros w2. unfold frameCallback. rewrite Hsch, Hrun. reflexivity.
Qed.

(** X11, witness: the loop of [pageRunaway] outlives an end event that
    finds the target settled, the teardown and three frames. *)
Lemma runaway_loop_never_stops_witness :
  exists w1,
    run plainGlobals pageRunaway laterEvents = Some w1
    /\ nth_error (loops w1) 0 = Some (mkLoop 0 Transition true true false).
Proof.
  assert (Hr : exists w1, run plainGlobals pageRunaway laterEvents = Some w1)
    by (eexists; vm_compute; reflexivity).
  destruct Hr as [w1 Hr]. exists w1. split; [exact Hr|].
  apply (proj1 (runaway_loop_never_stops plainGlobals laterEvents pageRunaway w1 0
                  (mkLoop 0 Transition true true false)
                  eq_refl eq_refl eq_refl eq_refl Hr)).
Defined.

(** X12: a loop that has stopped is never started again.  Once [running]
    is false it stays false under every sequence of events, and once the
    loop has left the frame queue it does not come back: a later
    transition or animation polls with a loop of its own. *)
Theorem stopped_loop_stays_stopped :
  forall (g : Globals) (es : list Event) (w w1 : World) (i : nat) (l : Loop),
    nth_error (loops w) i = Some l ->
    running l = false ->
    run g w es = Some w1 ->
    exists l1,
      nth_error (loops w1) i = Some l1
      /\ running l1 = false
      /\ loopSession l1 = loopSession l /\ loopKind l1 = loopKind l
      /\ (scheduled l = false -> scheduled l1 = false)
      /\ forall w2, frameCallback g l1 w2 = Some w2.
Proof.
  intros g es. induction es as [|e es IH]; intros w w1 i l Hl Hrun H; cbn [run] in H.
  - inversion H; subst. exists l. repeat split; try assumption; try reflexivity.
    + intros Hs; exact Hs.
    + intros w2. unfold frameCallback. rewrite Hrun, andb_false_r. reflexivity.
  - destruct (step g w e) as [w0|] eqn:Es; [|discriminate]. cbn [andThen] in H.
    assert (Hstep : exists l0, nth_error (loops w0) i = Some l0 /\ running l0 = false
                               /\ loopSession l0 = loopSession l
                               /\ loopKind l0 = loopKind l
                               /\ (scheduled l = false -> scheduled l0 = false)).
    { destruct (step_loop_at g w w0 e i l Hl Es) as [Hs|[(k & n & Hs)|Hs]].
      - exists l. repeat split; try assumption. intros Hx; exact Hx.
      - exists (endHandler w k n l). split; [exact Hs|].
        unfold endHandler. destruct (nth_error (sessions w) (loopSession l)) as [s|].
        + destruct (endListener l && Kind_eqb (loopKind l) k
                    && Node_eqb (parentElement s) n)%bool.
          * cbn [running loopSession loopKind scheduled]. rewrite Hrun.
            destruct (parentSettled w s); repeat split; intros Hx; exact Hx.
          * repeat split; try assumption. intros Hx; exact Hx.
        + repeat split; try assumption. intros Hx; exact Hx.
      - exists (afterFrame l). split; [exact Hs|].
        unfold afterFrame. destruct (scheduled l && negb (running l))%bool.
        + cbn [running loopSession loopKind scheduled]. repeat split; try assumption.
        + repeat split; try assumption. intros Hx; exact Hx. }
    destruct Hstep as (l0 & Hl0 & Hrun0 & Hs0 & Hk0 & Hsch0).
    destruct (IH w0 w1 i l0 Hl0 Hrun0 H) as (l1 & Hl1 & Hrun1 & Hs1 & Hk1 & Hsch1 & Hf).
    exists l1. repeat split; try assumption; try congruence.
    intros Hx. apply Hsch1, Hsch0, Hx.
Qed.

(** X12, witness: the stopped loop of [pageStopped] stays out of the frame
    queue through a second transition, which polls with a loop of its
    own. *)
Lemma stopped_loop_stays_stopped_witness :
  exists w1 l1,
    run plainGlobals pageStopped secondTransition = Some w1
    /\ nth_error (loops w1) 0 = Some l1
    /\ running l1 = false /\ scheduled l1 = false
    /\ List.length (loops w1) = 2%nat.
Proof.
  assert (Hr : exists w1, run plainGlobals pageStopped secondTransition = Some w1
                          /\ List.length (loops w1) = 2%nat)
    by (eexists; split; vm_compute; reflexivity).
  destruct Hr as (w1 & Hr & Hn). exists w1.
  destruct (stopped_loop_stays_stopped plainGlobals secondTransition pageStopped w1 0
              (mkLoop 0 Transition false false false) eq_refl eq_refl Hr)
    as (l1 & Hl & Hrun & _ & _ & Hsch & _).
  exists l1. split; [exact Hr|]. split; [exact Hl|]. split; [exact Hrun|].
  split; [exact (Hsch eq_refl)|exact Hn].
Defined.

(** ** Teardown and the other events *)

Lemma nth_error_updateAt {A : Type} (f : A -> A) (xs : list A) (i j : nat) :
  nth_error (updateAt i f xs) j
  = if Nat.eqb j i then option_map f (nth_error xs j) else nth_error xs j.
Proof.
  revert i j. induction xs as [|x xs IH]; intros i j.
  - destruct i, j; simpl; try reflexivity; destruct (Nat.eqb j i); reflexivity.
  - destruct i as [|i], j as [|j]; simpl; try reflexivity. apply IH.
Qed.

Lemma length_updateAt {A : Type} (f : A -> A) (xs : list A) (i : nat) :
  List.length (updateAt i f xs) = List.length xs.
Proof.
  revert i. induction xs as [|x xs IH]; intros [|i]; simpl; try reflexivity.
  rewrite IH. reflexivity.
Qed.

Lemma updateAt_snoc {A : Type} (f : A -> A) (xs : list A) (x : A) (i : nat) :
  (i < List.length xs)%nat ->
  updateAt i f (xs ++ [x]) = (updateAt i f xs ++ [x])%list.
Proof.
  revert i. induction xs as [|y xs IH]; intros i Hi; simpl in Hi; [lia|].
  destruct i as [|i]; simpl; [reflexivity|]. rewrite IH by lia. reflexivity.
Qed.

Lemma updateAt_twice {A : Type} (f : A -> A) (xs : list A) (i j : nat) :
  (forall x, f (f x) = f x) ->
  updateAt i f (updateAt j f xs) = updateAt j f (updateAt i f xs).
Proof.
  intros Hf. revert i j. induction xs as [|x xs IH]; intros [|i] [|j]; simpl;
    try reflexivity.
  rewrite IH. reflexivity.
Qed.

Lemma updateAt_keeps_parent (i : nat) (ss : list Session) :
  List.map parentElement (updateAt i disconnect ss) = List.map parentElement ss.
Proof.
  revert i. induction ss as [|s ss IH]; intros [|i]; simpl; try reflexivity.
  rewrite IH. reflexivity.
Qed.

Section Teardown.

Variable g : Globals.
Variable h : Handle.

(** A session and the same session with its observer disconnected
    render alike. *)
Lemma render_destroy (sid : nat) (w : World) :
  render g sid (destroy h w) = option_map (destroy h) (render g sid w).
Proof.
  unfold render.
  change (sessions (destroy h w)) with (updateAt (handleSession h) disconnect (sessions w)).
  change (elBox (destroy h w)) with (elBox w).
  change (el (destroy h w)) with (el w).
  rewrite nth_error_updateAt.
  destruct (nth_error (sessions w) sid) as [s|]; destruct (Nat.eqb sid (handleSession h));
    cbn [option_map]; try reflexivity;
    destruct (elBox w) as [width height]; cbn [disconnect sPaths sBackdropBlur sViewBox];
    destruct (createSvgElement g (el w) (sPaths s) width height
                (sBackdropBlur s) (sViewBox s)) as [[e out]|]; reflexivity.
Qed.

(** Two steps that commute with the teardown do so in sequence. *)
Lemma andThen_destroy (f k' k : World -> option World) (w : World) :
  f (destroy h w) = option_map (destroy h) (f w) ->
  (forall w0, k' (destroy h w0) = option_map (destroy h) (k w0)) ->
  andThen (f (destroy h w)) k' = option_map (destroy h) (andThen (f w) k).
Proof.
  intros Hf Hk. rewrite Hf. destruct (f w) as [w0|]; [apply Hk|reflexivity].
Qed.

Lemma repeatRender_destroy (sid n : nat) (w : World) :
  repeatRender g sid n (destroy h w)
  = option_map (destroy h) (repeatRender g sid n w).
Proof.
  revert w. induction n as [|n IH]; intros w; [reflexivity|].
  cbn [repeatRender]. apply andThen_destroy; [apply render_destroy|exact IH].
Qed.

Lemma runCallbacks_destroy (ls : list Loop) (w : World) :
  runCallbacks g ls (destroy h w) = option_map (destroy h) (runCallbacks g ls w).
Proof.
  revert w. induction ls as [|l ls IH]; intros w; [reflexivity|].
  cbn [runCallbacks]. apply andThen_destroy; [|exact IH].
  unfold frameCallback. destruct (scheduled l && running l)%bool;
    [apply render_destroy|reflexivity].
Qed.

Lemma startHandler_destroy (k : Kind) (sid : nat) (w : World) :
  startHandler g k sid (destroy h w)
  = option_map (destroy h) (startHandler g k sid w).
Proof.
  unfold startHandler. apply andThen_destroy; [apply render_destroy|].
  intros w0. reflexivity.
Qed.

(** The listeners are dispatched by [parentElement], which the teardown
    keeps. *)
Lemma dispatchStart_destroy (k : Kind) (n : Node) (ss ss' : list Session) (sid : nat)
    (w : World) :
  List.map parentElement ss' = List.map parentElement ss ->
  dispatchStart g k n sid ss' (destroy h w)
  = option_map (destroy h) (dispatchStart g k n sid ss w).
Proof.
  revert ss' sid w. induction ss as [|s ss IH]; intros [|s' ss'] sid w Hp;
    try discriminate; [reflexivity|].
  cbn [List.map] in Hp. inversion Hp as [[Hs Hrest]].
  cbn [dispatchStart]. rewrite Hs.
  destruct (Node_eqb (parentElement s) n).
  - apply andThen_destroy; [apply startHandler_destroy|].
    intros w0. apply IH. exact Hrest.
  - cbn [andThen]. apply IH. exact Hrest.
Qed.

(** The end listener reads the boxes and the cache, which the teardown
    keeps. *)
Lemma endHandler_destroy (w : World) (k : Kind) (n : Node) (l : Loop) :
  endHandler (destroy h w) k n l = endHandler w k n l.
Proof.
  unfold endHandler.
  change (sessions (destroy h w)) with (updateAt (handleSession h) disconnect (sessions w)).
  rewrite nth_error_updateAt.
  destruct (nth_error (sessions w) (loopSession l)) as [s|];
    destruct (Nat.eqb (loopSession l) (handleSession h)); reflexivity.
Qed.

(** X13: the teardown touches nothing but the resize notifications of its
    own observer.  For a handle that [setupSvgRenderer] has returned and
    every event other than a resize notification to that handle's
    observer, destroying the handle before the event gives the same world
    as destroying it after the event: starts and ends of transitions and
    animations, animation frames, calls of [el.render], other sessions and
    their observers go on as if [destroy] had not been called. *)
Theorem destroy_commutes_with_events :
  forall (w : World) (e : Event),
    (handleSession h < List.length (sessions w))%nat ->
    notifies h e = false ->
    step g (destroy h w) e = option_map (destroy h) (step g w e).
Proof.
  intros w e Hvalid He.
  destruct e as [paths blur vb|h2| |n b|sid entries|k n|k n| ]; cbn [step].
  - cbn [option_map]. f_equal. unfold setupSvgRenderer, destroy.
    cbn [fst withSessions sessions el elBox ancestors loops elRender sinkLog].
    rewrite length_updateAt, updateAt_snoc by exact Hvalid. reflexivity.
  - cbn [option_map]. f_equal. unfold destroy.
    cbn [withSessions sessions el elBox ancestors loops elRender sinkLog].
    rewrite (updateAt_twice disconnect); [reflexivity|]. intros x. reflexivity.
  - change (elRender (destroy h w)) with (elRender w).
    destruct (elRender w) as [sid|]; [apply render_destroy|reflexivity].
  - cbn [option_map]. f_equal. destruct n; reflexivity.
  - cbn [notifies] in He.
    change (sessions (destroy h w))
      with (updateAt (handleSession h) disconnect (sessions w)).
    rewrite nth_error_updateAt, He.
    destruct (nth_error (sessions w) sid) as [s|]; [|reflexivity].
    destruct (observing s); [apply repeatRender_destroy|reflexivity].
  - change (sessions (destroy h w))
      with (updateAt (handleSession h) disconnect (sessions w)).
    apply dispatchStart_destroy, updateAt_keeps_parent.
  - cbn [option_map]. f_equal.
    change (loops (destroy h w)) with (loops w).
    rewrite (map_ext _ _ (fun l => endHandler_destroy w k n l)). reflexivity.
  - change (loops (destroy h w)) with (loops w).
    apply andThen_destroy; [apply runCallbacks_destroy|].
    intros w0. reflexivity.
Qed.

End Teardown.

(** X13, witness: on the polling page, the frame after the target grew
    renders 300 by 100 whether the handle is destroyed before or after
    it. *)
Lemma destroy_commutes_with_events_witness :
  step plainGlobals
    (destroy (mkHandle 0) (setBox Target (ofZ 300, ofZ 100) pagePolling)) AnimationFrame
  = option_map (destroy (mkHandle 0))
      (step plainGlobals (setBox Target (ofZ 300, ofZ 100) pagePolling) AnimationFrame).
Proof.
  apply (destroy_commutes_with_events plainGlobals (mkHandle 0)
           (setBox Target (ofZ 300, ofZ 100) pagePolling) AnimationFrame).
  - vm_compute. lia.
  - reflexivity.
Defined.

(** ** The stop test against the box of another element *)

(** X14: the stop test of a polling loop compares the box of the watched
    node with the cache of the target.  When the cache is up to date, the
    test succeeds exactly when the watched node is as wide and as high as
    the target (as texts of the numbers); a loop that watches an ancestor
    of another size is therefore not stopped by an end event that finds the
    target rendered. *)
Theorem stop_test_compares_ancestor_with_target :
  forall (w : World) (s : Session),
    cacheCurrent w ->
    (parentSettled w s = true
     <-> toString (fst (boxOf w (parentElement s))) = toString (fst (elBox w))
         /\ toString (snd (boxOf w (parentElement s))) = toString (snd (elBox w))).
Proof.
  intros w s Hc. unfold cacheCurrent in Hc. apply dimensionsChanged_false in Hc.
  destruct Hc as [Hw Hh]. rewrite parentSettled_true, Hw, Hh. split.
  - intros [A B]. inversion A. inversion B. split; reflexivity.
  - intros [A B]. rewrite A, B. split; reflexivity.
Qed.

(** X14, witness: rendered at 200 by 100 inside a grandparent of 400 by
    300 that has the transition, the target's loop is not stopped. *)
Lemma stop_test_compares_ancestor_with_target_witness :
  parentSettled
    (mkWorld cachedAt200x100 (ofZ 200, ofZ 100) nestedChain
       [mkSession diagonal false false (AncestorAt 1) true]
       [freshLoop Transition 0] (Some 0%nat) [diagonalAt200x100])
    (mkSession diagonal false false (AncestorAt 1) true)
  = false.
Proof.
  pose proof (stop_test_compares_ancestor_with_target
                (mkWorld cachedAt200x100 (ofZ 200, ofZ 100) nestedChain
                   [mkSession diagonal false false (AncestorAt 1) true]
                   [freshLoop Transition 0] (Some 0%nat) [diagonalAt200x100])
                (mkSession diagonal false false (AncestorAt 1) true)) as H.
  destruct (parentSettled _ _); [|reflexivity].
  exfalso. assert (Hc : cacheCurrent
                          (mkWorld cachedAt200x100 (ofZ 200, ofZ 100) nestedChain
                             [mkSession diagonal false false (AncestorAt 1) true]
                             [freshLoop Transition 0] (Some 0%nat) [diagonalAt200x100]))
    by (vm_compute; reflexivity).
  destruct (proj1 (H Hc) eq_refl) as [A _]. vm_compute in A. discriminate.
Defined.

(** ** Operands that name no dimension *)

(** X15: an operand without percent sign and without the letters [w] and
    [h] (so without the symbols [width] and [height]) reaches the
    evaluator as it was written, and its value is the same at all
    dimensions. *)
Theorem dimension_free_operand :
  forall (g : Globals) (dimension operand : string)
         (width height width' height' : float),
    includesChar "%" operand = false ->
    includesChar "w" operand = false ->
    includesChar "h" operand = false ->
    replaced (expressionText dimension operand) width height = operand
    /\ operandValue g dimension operand width height
       = operandValue g dimension operand width' height'.
Proof.
  intros g dimension operand width height width' height' Hp Hw Hh.
  assert (Htext : forall a b, replaced (expressionText dimension operand) a b = operand).
  { intros a b. unfold replaced. rewrite replaceAll_same. unfold expressionText.
    rewrite (replaceAll_absent "%" EmptyString _ operand Hp).
    rewrite (replacePercentLiterals_without_percent operand Hp).
    unfold substituteWidth. rewrite (replaceAll_absent "w" "idth" _ operand Hw).
    unfold substituteHeight. apply (replaceAll_absent "h" "eight" _ operand Hh). }
  split; [apply Htext|].
  unfold operandValue, evalExpression. rewrite !Htext. reflexivity.
Qed.

(** X15, witness: [2*(3+4)] is 14 at 200 by 100 and at 640 by 480. *)
Lemma dimension_free_operand_witness :
  operandValue plainGlobals "width" "2*(3+4)" (ofZ 200) (ofZ 100) = Some (ofZ 14)
  /\ operandValue plainGlobals "width" "2*(3+4)" (ofZ 640) (ofZ 480) = Some (ofZ 14).
Proof.
  destruct (dimension_free_operand plainGlobals "width" "2*(3+4)"
              (ofZ 200) (ofZ 100) (ofZ 640) (ofZ 480) eq_refl eq_refl eq_refl)
    as [_ Heq].
  split; [|rewrite <- Heq]; vm_compute; reflexivity.
Defined.
